(** * S3-stat.py: bucket size inventory over CloudWatch metrics

    A shallow embedding of [src/S3-stat.py] and the properties its
    design document states about it.

    Modelling choices.
    - Python exceptions are a value of [exn]; a call that may raise returns
      a [result].  The script tells [ClientError] apart from every other
      exception class, so the embedding keeps exactly that distinction.
    - [print] of a warning is an element of an output log ([line]).
    - The AWS services are an environment record [AWS] answering each call.
    - Sizes are Python floats.  A finite binary64 number is an integer
      multiple of 2^-1074, so it is modelled by that integer ([Z], with
      its order and its equality); the int 0 the totals start from is the
      same value as 0.0.  [F64.add] is the addition of binary64: the exact
      sum rounded to 53 significant bits, ties to even.  The exponent is
      not bounded above: a sum beyond the largest double (about 1.8e308)
      stays a number where Python has inf.
    - [format_size] works on rationals [Q]: dividing a binary64 number that
      is at least 1024 by 1024.0 is exact, and the [.2f] conversion rounds
      the exact value to the nearest hundredth, ties to even.
    - [dict] is a [gmap]; [list.sort] and [sorted] are a stable insertion
      sort (the result of a stable sort is unique, see
      [PySortFacts.sorted_lists_eq]). *)

From Stdlib Require Import ZArith QArith Qround Qabs Qpower Qfield Lqa.
From Stdlib Require Import List Sorted Permutation Lia.
From Stdlib Require Import Ascii String DecimalString DecimalPos.
From stdpp Require Import base gmap strings list fin_maps sorting.

Open Scope Z_scope.

(** ** Python values and control flow *)

Module Py.

(** The exception classes the script distinguishes (line 9, and the
    [except] clauses at lines 31, 103, 108, 227-232). *)
Inductive exn : Type :=
  | ClientError (msg : string)
  | NoCredentialsError
  | OtherException (msg : string).

Inductive result (A : Type) : Type :=
  | Ok (a : A)
  | Raise (e : exn).
Arguments Ok {A} a.
Arguments Raise {A} e.

Definition is_ClientError (e : exn) : bool :=
  match e with ClientError _ => true | _ => false end.

Definition raises {A} (r : result A) : Prop :=
  match r with Raise _ => True | Ok _ => False end.

End Py.
Import Py.

(** ** [list.sort] and [sorted]

    Both are stable and compare keys with [<] only; [reverse=True] sorts
    as if every comparison were reversed and keeps equal elements in their
    original order. *)

Module PySort.
Section Sort.
Context {A K : Type} (lt : K → K → bool) (key : A → K).

(** [goes_first reverse a b]: [a] has to come before [b]. *)
Definition goes_first (reverse : bool) (a b : A) : bool :=
  if reverse then lt (key b) (key a) else lt (key a) (key b).

(** [a] may stay in front of [b]. *)
Definition in_order (reverse : bool) (a b : A) : Prop :=
  goes_first reverse b a = false.

(** [x] was to the left of every element of [l] in the original list. *)
Fixpoint insert (reverse : bool) (x : A) (l : list A) : list A :=
  match l with
  | [] => [x]
  | y :: l' =>
      if goes_first reverse y x then y :: insert reverse x l' else x :: y :: l'
  end.

Definition sorted (reverse : bool) (l : list A) : list A :=
  foldr (insert reverse) [] l.
End Sort.
End PySort.

(** ** Python floats *)

Module F64.

(** The double equal to the integer [b] (when there is one: up to 2^53 in
    magnitude every integer is a double). *)
Definition of_Z (b : Z) : Z := b * 2 ^ 1074.

(** A whole number: a multiple of [of_Z 1]. *)
Definition whole (n : Z) : Prop := (of_Z 1 | n).

(** How many low bits of [n] do not fit into 53 significant bits. *)
Definition dropped_bits (n : Z) : Z := Z.max 0 (Z.log2 (Z.abs n) + 1 - 53).

(** The double nearest to [n * 2^-1074], the one with an even 53-bit
    significand when two are equally near. *)
Definition round (n : Z) : Z :=
  let s := dropped_bits n in
  let q := Z.abs n / 2 ^ s in
  let r := Z.abs n mod 2 ^ s in
  let up :=
    match 2 * r ?= 2 ^ s with
    | Lt => false
    | Gt => true
    | Eq => Z.odd q
    end in
  Z.sgn n * ((if up then q + 1 else q) * 2 ^ s).

(** [a + b] on floats. *)
Definition add (a b : Z) : Z := round (a + b).

End F64.

(** ** The script *)

Module S3Stat.

(** Warnings printed by the two resolvers (lines 32 and 109). *)
Inductive line : Type :=
  | WarnRegion (bucket_name : string) (e : exn)
  | WarnSize (bucket_name : string) (e : exn).

(** A CloudWatch client object; [client_id] is its identity. *)
Record Client : Type := { client_id : nat; client_region : string }.

(** An element of [response['Datapoints']]; [Average] is a float
    (see [F64]). *)
Record Datapoint : Type := { Timestamp : Z; Average : Z }.

(** An element of [response['Buckets']]. *)
Record Bucket : Type := { Name : string; CreationDate : Z }.

(** One [get_metric_statistics] call: client, BucketName and StorageType
    dimension values. *)
Record MetricQuery : Type :=
  { q_client : Client; q_bucket : string; q_storage_type : string }.

(** The services the script talks to. *)
Record AWS : Type := {
  (** [boto3.client('s3')] returns or raises *)
  boto3_s3 : result unit;
  list_buckets : result (list Bucket);
  get_bucket_location : string → result (option string);
  (** [boto3.client('cloudwatch', region_name=r)] returns or raises *)
  boto3_client : string → result unit;
  get_metric_statistics : Client → string → string → result (list Datapoint)
}.

(** The dict [cloudwatch_clients] of [main] together with what the run
    has done so far: clients constructed, metric queries issued and
    warnings printed, each in chronological order. *)
Record World : Type := {
  cloudwatch_clients : gmap string Client;
  constructed : list Client;
  queries : list MetricQuery;
  stdout : list line
}.

Definition print (l : line) (w : World) : World :=
  {| cloudwatch_clients := cloudwatch_clients w; constructed := constructed w;
     queries := queries w; stdout := stdout w ++ [l] |}.

Definition log_query (q : MetricQuery) (w : World) : World :=
  {| cloudwatch_clients := cloudwatch_clients w; constructed := constructed w;
     queries := queries w ++ [q]; stdout := stdout w |}.

(** [cloudwatch_clients[bucket_region] = c] for a client just constructed. *)
Definition store_client (bucket_region : string) (c : Client) (w : World) : World :=
  {| cloudwatch_clients := <[bucket_region := c]> (cloudwatch_clients w);
     constructed := constructed w ++ [c];
     queries := queries w; stdout := stdout w |}.

(** [get_bucket_region], lines 13-33. *)
Definition get_bucket_region (aws : AWS) (bucket_name : string) (w : World)
    : result string * World :=
  match get_bucket_location aws bucket_name with
  | Ok response =>
      let region := response in
      let region :=
        match region with None => "us-east-1"%string | Some r => r end in
      (Ok region, w)
  | Raise (ClientError msg) =>
      (Ok "us-east-1"%string, print (WarnRegion bucket_name (ClientError msg)) w)
  | Raise e => (Raise e, w)
  end.

(** Lines 63-79. *)
Definition storage_types : list string :=
  [ "StandardStorage";
    "StandardIAStorage";
    "IntelligentTieringFAStorage";
    "IntelligentTieringIAStorage";
    "IntelligentTieringAAStorage";
    "IntelligentTieringAIAStorage";
    "IntelligentTieringDAAStorage";
    "OneZoneIAStorage";
    "ReducedRedundancyStorage";
    "GlacierInstantRetrievalStorage";
    "GlacierStorage";
    "DeepArchiveStorage";
    "GlacierStagingStorage";
    "GlacierObjectOverhead";
    "GlacierS3ObjectOverhead" ]%string.

(** Lines 53-56: get or create the client of the region. *)
Definition acquire_client (aws : AWS) (bucket_region : string) (w : World)
    : result Client * World :=
  match cloudwatch_clients w !! bucket_region with
  | Some cloudwatch_client => (Ok cloudwatch_client, w)
  | None =>
      match boto3_client aws bucket_region with
      | Raise e => (Raise e, w)
      | Ok _ =>
          let c := {| client_id := length (constructed w);
                      client_region := bucket_region |} in
          (Ok c, store_client bucket_region c w)
      end
  end.

(** The loop of lines 83-105. *)
Fixpoint probe (aws : AWS) (cloudwatch_client : Client) (bucket_name : string)
    (types : list string) (total_size : Z) (w : World) : result Z * World :=
  match types with
  | [] => (Ok total_size, w)
  | storage_type :: rest =>
      let w := log_query {| q_client := cloudwatch_client;
                            q_bucket := bucket_name;
                            q_storage_type := storage_type |} w in
      match get_metric_statistics aws cloudwatch_client bucket_name storage_type with
      | Ok response =>
          let total_size :=
            match response with
            | [] => total_size
            | _ :: _ =>
                let datapoints :=
                  PySort.sorted Z.ltb Timestamp true response in
                match datapoints with
                | d :: _ => F64.add total_size (Average d)
                | [] => total_size
                end
            end in
          probe aws cloudwatch_client bucket_name rest total_size w
      | Raise (ClientError _) =>
          probe aws cloudwatch_client bucket_name rest total_size w
      | Raise e => (Raise e, w)
      end
  end.

(** The body of the outer [try] of [get_bucket_size], lines 50-107. *)
Definition get_bucket_size_try (aws : AWS) (bucket_name bucket_region : string)
    (w : World) : result Z * World :=
  match acquire_client aws bucket_region w with
  | (Raise e, w) => (Raise e, w)
  | (Ok cloudwatch_client, w) =>
      probe aws cloudwatch_client bucket_name storage_types 0 w
  end.

(** [get_bucket_size], lines 36-110. *)
Definition get_bucket_size (aws : AWS) (bucket_name bucket_region : string)
    (w : World) : Z * World :=
  match get_bucket_size_try aws bucket_name bucket_region w with
  | (Ok total_size, w) => (total_size, w)
  | (Raise e, w) => (0, print (WarnSize bucket_name e) w)
  end.

(** The entries of [bucket_sizes], lines 172-177. *)
Module item.
Record t : Type :=
  { name : string; size : Z; region : string; created : Z }.
End item.

(** The values of [region_stats], line 206. *)
Module stats.
Record t : Type := { count : Z; size : Z }.
End stats.

#[global] Instance stats_inhabited : Inhabited stats.t :=
  populate {| stats.count := 0; stats.size := 0 |}.

(** The loop of lines 161-181. *)
Fixpoint collect (aws : AWS) (buckets : list Bucket)
    (bucket_sizes : list item.t) (total_size : Z) (w : World)
    : result (list item.t * Z) * World :=
  match buckets with
  | [] => (Ok (bucket_sizes, total_size), w)
  | bucket :: rest =>
      let bucket_name := Name bucket in
      match get_bucket_region aws bucket_name w with
      | (Raise e, w) => (Raise e, w)
      | (Ok bucket_region, w) =>
          let '(size, w) := get_bucket_size aws bucket_name bucket_region w in
          collect aws rest
            (bucket_sizes ++ [ {| item.name := bucket_name;
                                  item.size := size;
                                  item.region := bucket_region;
                                  item.created := CreationDate bucket |} ])
            (F64.add total_size size) w
      end
  end.

(** Line 190: [bucket_sizes.sort(key=lambda x: x['size'], reverse=True)]. *)
Definition sort_by_size (bucket_sizes : list item.t) : list item.t :=
  PySort.sorted Z.ltb item.size true bucket_sizes.

(** The loop of lines 203-208. *)
Fixpoint region_stats_loop (bucket_sizes : list item.t)
    (region_stats : gmap string stats.t) : gmap string stats.t :=
  match bucket_sizes with
  | [] => region_stats
  | item :: rest =>
      let region := item.region item in
      let region_stats :=
        match region_stats !! region with
        | None => <[region := {| stats.count := 0; stats.size := 0 |}]> region_stats
        | Some _ => region_stats
        end in
      let region_stats :=
        alter (λ s, {| stats.count := stats.count s + 1;
                       stats.size := stats.size s |}) region region_stats in
      let region_stats :=
        alter (λ s, {| stats.count := stats.count s;
                       stats.size := F64.add (stats.size s) (item.size item) |})
              region region_stats in
      region_stats_loop rest region_stats
  end.

(** Line 213: [sorted(region_stats.keys())].  The keys of a dict are
    pairwise distinct, so the order in which they are handed to [sorted]
    does not show in its result. *)
Definition sorted_regions (region_stats : gmap string stats.t) : list string :=
  PySort.sorted String.ltb id false (map_to_list region_stats).*1.

(** Lines 213-218: one row per region, [stats = region_stats[region]]. *)
Definition region_rows (region_stats : gmap string stats.t)
    : list (string * stats.t) :=
  (λ region, (region, region_stats !!! region)) <$> sorted_regions region_stats.

Definition Zsum (l : list Z) : Z := foldr Z.add 0 l.

(** What lines 183-225 display. *)
Record Report : Type := {
  details : list item.t;
  by_region : list (string * stats.t);
  bucket_total : nat;
  region_total : nat;
  grand_total : Z
}.

Inductive outcome : Type :=
  | NoBuckets
  | Finished (r : Report)
  | Aborted (e : exn).

Definition start : World :=
  {| cloudwatch_clients := ∅; constructed := []; queries := []; stdout := [] |}.

(** [main], lines 130-233. *)
Definition main (aws : AWS) : outcome * World :=
  match boto3_s3 aws with
  | Raise e => (Aborted e, start)
  | Ok s3_client =>
      let cloudwatch_clients := start in
      match list_buckets aws with
      | Raise e => (Aborted e, cloudwatch_clients)
      | Ok [] => (NoBuckets, cloudwatch_clients)
      | Ok buckets =>
          match collect aws buckets [] 0 cloudwatch_clients with
          | (Raise e, w) => (Aborted e, w)
          | (Ok (bucket_sizes, total_size), w) =>
              let bucket_sizes := sort_by_size bucket_sizes in
              let region_stats := region_stats_loop bucket_sizes ∅ in
              (Finished {| details := bucket_sizes;
                           by_region := region_rows region_stats;
                           bucket_total := length buckets;
                           region_total := size region_stats;
                           grand_total := total_size |}, w)
          end
      end
  end.

(** The records of one region, in list order. *)
Definition in_region (region : string) (bucket_sizes : list item.t) : list item.t :=
  filter (λ x, item.region x = region) bucket_sizes.

(** The invariant of the client cache: the dict holds exactly the clients
    constructed so far, each under its region and no two for one region;
    a client's identity is its rank of construction; every query issued
    went through one of them. *)
Definition cache_consistent (w : World) : Prop :=
  (∀ r c, cloudwatch_clients w !! r = Some c ↔
          c ∈ constructed w ∧ client_region c = r) ∧
  NoDup (map client_region (constructed w)) ∧
  (∀ i c, constructed w !! i = Some c → client_id c = i) ∧
  (∀ q, q ∈ queries w → q_client q ∈ constructed w).

(** What one acquisition does to the cache: nothing, or one new client
    for the requested region, which was not cached. *)
Inductive cache_step (bucket_region : string) (w w' : World) : Prop :=
  | cache_kept :
      cloudwatch_clients w' = cloudwatch_clients w →
      constructed w' = constructed w →
      cache_step bucket_region w w'
  | cache_grown c :
      cloudwatch_clients w !! bucket_region = None →
      c = {| client_id := length (constructed w); client_region := bucket_region |} →
      cloudwatch_clients w' = <[bucket_region := c]> (cloudwatch_clients w) →
      constructed w' = constructed w ++ [c] →
      cache_step bucket_region w w'.

(** *** [format_size] *)

Definition Qltb (x y : Q) : bool := negb (Qle_bool y x).

(** Nearest integer, ties to the even one. *)
Definition round_half_even (x : Q) : Z :=
  let f := Qfloor x in
  match Qcompare (x - inject_Z f) (1 # 2) with
  | Lt => f
  | Gt => f + 1
  | Eq => if Z.even f then f else f + 1
  end.

Definition digit (n : Z) : ascii := ascii_of_nat (48 + Z.to_nat n).

Definition decimal (n : Z) : string := NilEmpty.string_of_uint (N.to_uint (Z.to_N n)).

(** The conversion [f"{x:.2f}"]: sign, integer part, a point and two
    digits, for the hundredth nearest to [x]. *)
Definition fmt_2f (x : Q) : string :=
  let h := round_half_even (Qabs x * 100) in
  (if Qltb x 0 then "-" else "") +:+ decimal (h / 100) +:+ "." +:+
  String (digit (h mod 100 / 10)) (String (digit (h mod 10)) "").

Definition units : list string := ["B"; "KB"; "MB"; "GB"; "TB"; "PB"]%string.

(** The loop of lines 123-127 over the units still to try. *)
Fixpoint format_size_from (units : list string) (size_bytes : Q) : string :=
  match units with
  | [] => fmt_2f size_bytes +:+ " EB"
  | unit :: rest =>
      if Qltb size_bytes 1024 then fmt_2f size_bytes +:+ " " +:+ unit
      else format_size_from rest (size_bytes / 1024)
  end.

(** [format_size], lines 113-127. *)
Definition format_size (size_bytes : Q) : string :=
  format_size_from units size_bytes.

(** The value after [k] divisions by 1024. *)
Definition divided (k : nat) (size_bytes : Q) : Q :=
  Nat.iter k (λ v : Q, (v / 1024)%Q) size_bytes.

Definition is_digit (c : ascii) : bool :=
  (48 <=? nat_of_ascii c)%nat && (nat_of_ascii c <=? 57)%nat.

Definition all_digits (s : string) : Prop :=
  Forall (λ c, is_digit c = true) (list_ascii_of_string s).

(** A numeral with exactly two decimal places: an optional minus sign,
    at least one digit, a point and two digits. *)
Definition two_decimal_places (negative : bool) (s : string) : Prop :=
  ∃ int d1 d2,
    s = (if negative then "-" else "") +:+ int +:+ "." +:+ String d1 (String d2 "") ∧
    int ≠ ""%string ∧ all_digits int ∧
    is_digit d1 = true ∧ is_digit d2 = true.

End S3Stat.

(** ** Sample environments *)

Module Scenario.
Import S3Stat.

(** A datapoint of [avg] bytes at time [t]. *)
Definition at_time (t avg : Z) : Datapoint :=
  {| Timestamp := t; Average := F64.of_Z avg |}.

(** An account without buckets where every call succeeds and no metric
    has data. *)
Definition quiet : AWS :=
  {| boto3_s3 := Ok tt;
     list_buckets := Ok [];
     get_bucket_location := λ _, Ok None;
     boto3_client := λ _, Ok tt;
     get_metric_statistics := λ _ _ _, Ok [] |}.

Definition with_location (f : string → result (option string)) (aws : AWS) : AWS :=
  {| boto3_s3 := boto3_s3 aws;
     list_buckets := list_buckets aws;
     get_bucket_location := f;
     boto3_client := boto3_client aws;
     get_metric_statistics := get_metric_statistics aws |}.

Definition with_metrics
    (f : Client → string → string → result (list Datapoint)) (aws : AWS) : AWS :=
  {| boto3_s3 := boto3_s3 aws;
     list_buckets := list_buckets aws;
     get_bucket_location := get_bucket_location aws;
     boto3_client := boto3_client aws;
     get_metric_statistics := f |}.

Definition with_buckets (l : list Bucket) (aws : AWS) : AWS :=
  {| boto3_s3 := boto3_s3 aws;
     list_buckets := Ok l;
     get_bucket_location := get_bucket_location aws;
     boto3_client := boto3_client aws;
     get_metric_statistics := get_metric_statistics aws |}.

(** The location constraint comes back as the empty string. *)
Definition empty_constraint : AWS := with_location (λ _, Ok (Some ""%string)) quiet.

(** The lookup fails for want of credentials. *)
Definition no_credentials : AWS := with_location (λ _, Raise NoCredentialsError) quiet.

(** The lookup is refused by the service. *)
Definition access_denied : AWS :=
  with_location (λ _, Raise (ClientError "AccessDenied")) quiet.

(** Standard storage holds 100 bytes; the query for the next class times
    out, which is no [ClientError]. *)
Definition timeout : AWS :=
  with_metrics (λ _ _ storage_type,
    if String.eqb storage_type "StandardStorage" then Ok [at_time 1 100]
    else if String.eqb storage_type "StandardIAStorage"
         then Raise (OtherException "timeout")
         else Ok []) quiet.

(** Three buckets of 500, 1500 and 0 bytes; the second lives in
    eu-west-1, the others in the default region. *)
Definition three_buckets : AWS :=
  with_buckets
    [ {| Name := "alpha"; CreationDate := 10 |};
      {| Name := "beta"; CreationDate := 20 |};
      {| Name := "gamma"; CreationDate := 30 |} ]%string
  (with_location (λ bucket_name,
     if String.eqb bucket_name "beta" then Ok (Some "eu-west-1"%string) else Ok None)
  (with_metrics (λ _ bucket_name storage_type,
     if String.eqb bucket_name "alpha" then
       if String.eqb storage_type "StandardStorage"
       then Ok [at_time 1 400; at_time 3 500; at_time 2 450]
       else if String.eqb storage_type "GlacierStorage"
            then Raise (ClientError "InvalidParameterValue")
            else Ok []
     else if String.eqb bucket_name "beta" then
       if String.eqb storage_type "StandardStorage" then Ok [at_time 3 1000]
       else if String.eqb storage_type "DeepArchiveStorage" then Ok [at_time 2 500]
       else Ok []
     else Ok [])
  quiet)).

(** What [main] reports for [three_buckets]. *)
Definition three_buckets_report : Report :=
  {| details :=
       [ {| item.name := "beta"; item.size := F64.of_Z 1500;
            item.region := "eu-west-1"; item.created := 20 |};
         {| item.name := "alpha"; item.size := F64.of_Z 500;
            item.region := "us-east-1"; item.created := 10 |};
         {| item.name := "gamma"; item.size := 0;
            item.region := "us-east-1"; item.created := 30 |} ];
     by_region :=
       [ ("eu-west-1"%string,
          {| stats.count := 1; stats.size := F64.of_Z 1500 |});
         ("us-east-1"%string,
          {| stats.count := 2; stats.size := F64.of_Z 500 |}) ];
     bucket_total := 3;
     region_total := 2;
     grand_total := F64.of_Z 2000 |}.

End Scenario.

(** ** Reference definitions

    What a reader of the metric expects, written without the sort. *)

Module Expected.
Import S3Stat.

(** The datapoint with the greatest timestamp seen so far; a later one
    replaces it only when its timestamp is strictly greater. *)
Fixpoint newest_from (best : Datapoint) (rest : list Datapoint) : Datapoint :=
  match rest with
  | [] => best
  | d :: rest =>
      newest_from (if Timestamp best <? Timestamp d then d else best) rest
  end.

Definition newest (datapoints : list Datapoint) : option Datapoint :=
  match datapoints with
  | [] => None
  | d :: rest => Some (newest_from d rest)
  end.

(** The running total after the answer to one metric query: the Average
    of the newest datapoint is added, an empty answer or an error adds
    nothing. *)
Definition absorb (total_size : Z) (response : result (list Datapoint)) : Z :=
  match response with
  | Ok datapoints =>
      match newest datapoints with
      | Some d => F64.add total_size (Average d)
      | None => total_size
      end
  | Raise _ => total_size
  end.

(** What the answer to one metric query is worth: the Average of its
    newest datapoint, and 0 for an empty answer or an error. *)
Definition worth (response : result (list Datapoint)) : Z :=
  match response with
  | Ok datapoints =>
      match newest datapoints with
      | Some d => Average d
      | None => 0
      end
  | Raise _ => 0
  end.

(** The sum of floats as Python accumulates it: from the left, rounding
    after every addition. *)
Definition sum_from (start : Z) (sizes : list Z) : Z :=
  fold_left F64.add sizes start.

Definition float_sum (sizes : list Z) : Z := sum_from 0 sizes.

(** Sizes that binary64 adds without rounding, in any order: whole
    numbers of bytes whose absolute values add up to less than 2^53. *)
Definition adds_exactly (sizes : list Z) : Prop :=
  Forall F64.whole sizes ∧ Zsum (map Z.abs sizes) < F64.of_Z (2 ^ 53).

(** Telling the two kinds of warning apart. *)
Definition is_region_warning (l : line) : bool :=
  match l with WarnRegion _ _ => true | WarnSize _ _ => false end.

(** The warning a bucket's region lookup calls for, if any. *)
Definition region_warning (aws : AWS) (bucket : Bucket) : option line :=
  match get_bucket_location aws (Name bucket) with
  | Raise (ClientError msg) => Some (WarnRegion (Name bucket) (ClientError msg))
  | _ => None
  end.

End Expected.

(** ** More sample environments *)

Module Outage.
Import S3Stat.

(** One bucket is listed and located, but no CloudWatch client can be
    constructed. *)
Definition cloudwatch_down : AWS :=
  {| boto3_s3 := Ok tt;
     list_buckets := Ok [ {| Name := "logs"; CreationDate := 5 |} ];
     get_bucket_location := λ _, Ok (Some "eu-west-1"%string);
     boto3_client := λ _, Raise (OtherException "endpoint unreachable");
     get_metric_statistics := λ _ _ _, Raise (OtherException "endpoint unreachable") |}.

(** The listing itself is refused. *)
Definition listing_denied : AWS :=
  {| boto3_s3 := Ok tt;
     list_buckets := Raise (ClientError "AccessDenied");
     get_bucket_location := λ _, Ok None;
     boto3_client := λ _, Ok tt;
     get_metric_statistics := λ _ _ _, Ok [] |}.

(** Two buckets; locating the second one fails for want of credentials. *)
Definition credentials_lost : AWS :=
  {| boto3_s3 := Ok tt;
     list_buckets := Ok [ {| Name := "alpha"; CreationDate := 1 |};
                          {| Name := "beta"; CreationDate := 2 |} ];
     get_bucket_location := λ bucket_name,
       if String.eqb bucket_name "beta" then Raise NoCredentialsError else Ok None;
     boto3_client := λ _, Ok tt;
     get_metric_statistics := λ _ _ _, Ok [] |}.

(** No S3 client can be constructed. *)
Definition no_s3 : AWS :=
  {| boto3_s3 := Raise NoCredentialsError;
     list_buckets := Ok [ {| Name := "logs"; CreationDate := 5 |} ];
     get_bucket_location := λ _, Ok None;
     boto3_client := λ _, Ok tt;
     get_metric_statistics := λ _ _ _, Ok [] |}.

End Outage.

(** ** Sizes beyond 2^53 bytes *)

Module Petabytes.
Import S3Stat.

(** Three buckets of one region holding 1, 1 and 2^53 bytes of standard
    storage. *)
Definition account : AWS :=
  {| boto3_s3 := Ok tt;
     list_buckets := Ok [ {| Name := "one"; CreationDate := 1 |};
                          {| Name := "two"; CreationDate := 2 |};
                          {| Name := "big"; CreationDate := 3 |} ];
     get_bucket_location := λ _, Ok None;
     boto3_client := λ _, Ok tt;
     get_metric_statistics := λ _ bucket_name storage_type,
       if String.eqb storage_type "StandardStorage" then
         if String.eqb bucket_name "big"
         then Ok [ {| Timestamp := 1; Average := F64.of_Z (2 ^ 53) |} ]
         else Ok [ {| Timestamp := 1; Average := F64.of_Z 1 |} ]
       else Ok [] |}.

(** The records of [account] in the order of the report. *)
Definition records : list item.t :=
  [ {| item.name := "big"; item.size := F64.of_Z (2 ^ 53);
       item.region := "us-east-1"; item.created := 3 |};
    {| item.name := "one"; item.size := F64.of_Z 1;
       item.region := "us-east-1"; item.created := 1 |};
    {| item.name := "two"; item.size := F64.of_Z 1;
       item.region := "us-east-1"; item.created := 2 |} ].

(** What [main] reports for [account]. *)
Definition report : Report :=
  {| details := records;
     by_region :=
       [ ("us-east-1"%string,
          {| stats.count := 3; stats.size := F64.of_Z (2 ^ 53) |}) ];
     bucket_total := 3;
     region_total := 1;
     grand_total := F64.of_Z (2 ^ 53 + 2) |}.

End Petabytes.

(** * Properties *)

(** ** Float addition *)

Module F64Facts.

Lemma scale_pos : 0 < F64.of_Z 1.
Proof. reflexivity. Qed.

Lemma of_Z_scale (b : Z) : F64.of_Z b = b * F64.of_Z 1.
Proof. unfold F64.of_Z. lia. Qed.

Lemma of_Z_add (a b : Z) : F64.of_Z a + F64.of_Z b = F64.of_Z (a + b).
Proof. unfold F64.of_Z. lia. Qed.

Lemma of_Z_lt (a b : Z) : F64.of_Z a < F64.of_Z b ↔ a < b.
Proof.
  rewrite (of_Z_scale a), (of_Z_scale b). pose proof scale_pos. split; nia.
Qed.

Lemma of_Z_abs (b : Z) : Z.abs (F64.of_Z b) = F64.of_Z (Z.abs b).
Proof. unfold F64.of_Z. rewrite Z.abs_mul. f_equal. Qed.

Lemma of_Z_nonneg (b : Z) : 0 ≤ b → 0 ≤ F64.of_Z b.
Proof. intros H. rewrite of_Z_scale. pose proof scale_pos. nia. Qed.

Lemma whole_of_Z (b : Z) : F64.whole (F64.of_Z b).
Proof. exists b. apply of_Z_scale. Qed.

Lemma whole_inv (n : Z) : F64.whole n → ∃ b, n = F64.of_Z b.
Proof. intros [b ->]. exists b. by rewrite <- of_Z_scale. Qed.

Lemma whole_check (l : list Z) :
  forallb (λ n, n mod F64.of_Z 1 =? 0) l = true → Forall F64.whole l.
Proof.
  intros H. apply Forall_forall. intros n Hn.
  rewrite forallb_forall in H. specialize (H n).
  rewrite <- list_elem_of_In in H. apply H, Z.eqb_eq in Hn.
  apply Z.mod_divide; [|done]. pose proof scale_pos. lia.
Qed.

Lemma whole_0 : F64.whole 0.
Proof. apply (whole_of_Z 0). Qed.

Lemma round_0 : F64.round 0 = 0.
Proof. reflexivity. Qed.

Lemma dropped_bits_nonneg (n : Z) : 0 ≤ F64.dropped_bits n.
Proof. unfold F64.dropped_bits. lia. Qed.

(** Rounding keeps the sign. *)
Lemma round_nonneg (n : Z) : 0 ≤ n → 0 ≤ F64.round n.
Proof.
  intros Hn. unfold F64.round.
  pose proof (dropped_bits_nonneg n) as Hs.
  set (s := F64.dropped_bits n) in *.
  assert (Hp : 0 < 2 ^ s) by (by apply Z.pow_pos_nonneg).
  assert (Hq : 0 ≤ Z.abs n / 2 ^ s) by (apply Z.div_pos; lia).
  assert (Hsg : 0 ≤ Z.sgn n) by lia.
  apply Z.mul_nonneg_nonneg; [done|].
  apply Z.mul_nonneg_nonneg; [|lia].
  destruct (match 2 * (Z.abs n mod 2 ^ s) ?= 2 ^ s with
            | Eq => Z.odd (Z.abs n / 2 ^ s) | Lt => false | Gt => true end); lia.
Qed.

Lemma add_nonneg (a b : Z) : 0 ≤ a → 0 ≤ b → 0 ≤ F64.add a b.
Proof. intros Ha Hb. apply round_nonneg. lia. Qed.

(** A number whose dropped bits are all zero is a double already. *)
Lemma round_divisible (n : Z) : (2 ^ F64.dropped_bits n | n) → F64.round n = n.
Proof.
  intros [k Hk]. unfold F64.round.
  pose proof (dropped_bits_nonneg n) as Hs.
  set (s := F64.dropped_bits n) in *.
  assert (Hp : 0 < 2 ^ s) by (by apply Z.pow_pos_nonneg).
  assert (Habs : Z.abs n = Z.abs k * 2 ^ s)
    by (rewrite Hk, Z.abs_mul; f_equal; lia).
  rewrite Habs, Z.mod_mul, Z.div_mul by lia.
  assert (Hlt : (2 * 0 ?= 2 ^ s) = Lt) by (apply Z.compare_lt_iff; lia).
  rewrite Hlt, <- Habs. rewrite Z.mul_comm. apply Z.abs_sgn.
Qed.

Lemma dropped_bits_small (b : Z) :
  Z.abs b < 2 ^ 53 → F64.dropped_bits (F64.of_Z b) ≤ 1074.
Proof.
  intros Hb. unfold F64.dropped_bits. rewrite of_Z_abs.
  destruct (decide (b = 0)) as [->|Hne]; [done|].
  unfold F64.of_Z. rewrite Z.log2_mul_pow2 by lia.
  assert (Z.log2 (Z.abs b) < 53) by (apply Z.log2_lt_pow2; lia).
  lia.
Qed.

(** Integers below 2^53 in magnitude are doubles. *)
Lemma round_of_Z (b : Z) : Z.abs b < 2 ^ 53 → F64.round (F64.of_Z b) = F64.of_Z b.
Proof.
  intros Hb. apply round_divisible.
  pose proof (dropped_bits_small b Hb) as Hle.
  pose proof (dropped_bits_nonneg (F64.of_Z b)) as Hs.
  set (s := F64.dropped_bits (F64.of_Z b)) in *.
  exists (b * 2 ^ (1074 - s)). unfold F64.of_Z.
  rewrite <- Z.mul_assoc, <- Z.pow_add_r by lia. do 2 f_equal. lia.
Qed.

Lemma add_exact (a b : Z) :
  F64.whole a → F64.whole b → Z.abs (a + b) < F64.of_Z (2 ^ 53) →
  F64.add a b = a + b.
Proof.
  intros [a' ->]%whole_inv [b' ->]%whole_inv Hlt. unfold F64.add.
  rewrite of_Z_add in *. apply round_of_Z.
  apply of_Z_lt. rewrite <- of_Z_abs. exact Hlt.
Qed.

Lemma whole_add (a b : Z) : F64.whole a → F64.whole b → F64.whole (a + b).
Proof. apply Z.divide_add_r. Qed.

(** The addition at work: 0.1 + 0.2 is 0.30000000000000004 (the doubles
    3602879701896397 / 2^55, 3602879701896397 / 2^54 and
    5404319552844596 / 2^54), 2^53 + 1 is 2^53 (a tie, to the even
    significand), 2^53 + 3 is 2^53 + 4, and 1 + 1 is 2. *)
Lemma add_samples :
  F64.add (3602879701896397 * 2 ^ 1019) (3602879701896397 * 2 ^ 1020)
    = 5404319552844596 * 2 ^ 1020 ∧
  F64.add (F64.of_Z (2 ^ 53)) (F64.of_Z 1) = F64.of_Z (2 ^ 53) ∧
  F64.add (F64.of_Z (2 ^ 53)) (F64.of_Z 3) = F64.of_Z (2 ^ 53 + 4) ∧
  F64.add (F64.of_Z (-(2 ^ 53))) (F64.of_Z (-1)) = F64.of_Z (-(2 ^ 53)) ∧
  F64.add (F64.of_Z 1) (F64.of_Z 1) = F64.of_Z 2.
Proof. repeat split; vm_compute; reflexivity. Qed.

(** *** Sums *)

Lemma Zsum_abs_nonneg (l : list Z) : 0 ≤ S3Stat.Zsum (map Z.abs l).
Proof. induction l; simpl; lia. Qed.

Lemma sum_from_exact (sizes : list Z) :
  ∀ start,
    F64.whole start → Forall F64.whole sizes →
    Z.abs start + S3Stat.Zsum (map Z.abs sizes) < F64.of_Z (2 ^ 53) →
    Expected.sum_from start sizes = start + S3Stat.Zsum sizes.
Proof.
  unfold Expected.sum_from.
  induction sizes as [|x l IH]; intros start Hs Hl Hlt; simpl in *; [lia|].
  apply Forall_cons in Hl as [Hx Hl].
  pose proof (Zsum_abs_nonneg l) as Hpos.
  rewrite (add_exact start x) by (done || lia).
  rewrite IH; [lia|by apply whole_add|done|lia].
Qed.

(** Below 2^53 the float sum of whole sizes is their exact sum. *)
Lemma float_sum_exact (sizes : list Z) :
  Expected.adds_exactly sizes → Expected.float_sum sizes = S3Stat.Zsum sizes.
Proof.
  intros [Hw Hlt]. unfold Expected.float_sum.
  rewrite sum_from_exact; [lia|apply whole_0|done|].
  change (Z.abs 0) with 0. lia.
Qed.

(** Below 2^53 the running total of whole Averages is their exact sum. *)
Lemma absorb_exact (answers : list (result (list S3Stat.Datapoint))) :
  ∀ start,
    F64.whole start → Forall F64.whole (map Expected.worth answers) →
    Z.abs start + S3Stat.Zsum (map Z.abs (map Expected.worth answers))
      < F64.of_Z (2 ^ 53) →
    fold_left Expected.absorb answers start =
      start + S3Stat.Zsum (map Expected.worth answers).
Proof.
  induction answers as [|r l IH]; intros start Hs Hl Hlt; simpl in *; [lia|].
  apply Forall_cons in Hl as [Hx Hl].
  pose proof (Zsum_abs_nonneg (map Expected.worth l)) as Hpos.
  assert (Hstep : Expected.absorb start r = start + Expected.worth r).
  { unfold Expected.absorb, Expected.worth in *.
    destruct r as [datapoints|e]; [|lia].
    destruct (Expected.newest datapoints) as [d|]; [|lia].
    apply add_exact; [done|done|lia]. }
  rewrite Hstep, IH; [lia|by apply whole_add|done|lia].
Qed.

Lemma sum_from_nonneg (sizes : list Z) :
  ∀ start, 0 ≤ start → Forall (λ z, 0 ≤ z) sizes →
    0 ≤ Expected.sum_from start sizes.
Proof.
  unfold Expected.sum_from.
  induction sizes as [|x l IH]; intros start Hs Hl; simpl; [done|].
  apply Forall_cons in Hl as [Hx Hl]. apply IH; [by apply add_nonneg|done].
Qed.

Lemma sum_from_app (l1 l2 : list Z) (start : Z) :
  Expected.sum_from start (l1 ++ l2) =
  Expected.sum_from (Expected.sum_from start l1) l2.
Proof. unfold Expected.sum_from. apply fold_left_app. Qed.

Lemma Zsum_abs_perm (l l' : list Z) :
  l ≡ₚ l' → S3Stat.Zsum (map Z.abs l) = S3Stat.Zsum (map Z.abs l').
Proof. induction 1; simpl; lia. Qed.

Lemma adds_exactly_perm (l l' : list Z) :
  l ≡ₚ l' → Expected.adds_exactly l → Expected.adds_exactly l'.
Proof.
  intros Hp [Hw Hlt]. split.
  - by rewrite <- Hp.
  - by rewrite <- (Zsum_abs_perm l l' Hp).
Qed.

(** Part of a list that adds exactly adds exactly. *)
Lemma adds_exactly_filter {A} (f : A → Z) (P : A → Prop)
    `{!∀ a, Decision (P a)} (l : list A) :
  Expected.adds_exactly (map f l) → Expected.adds_exactly (map f (filter P l)).
Proof.
  intros [Hw Hlt]. split.
  - apply Forall_forall. intros z (a & -> & Ha)%list_elem_of_fmap.
    apply list_elem_of_filter in Ha as [_ Ha].
    rewrite Forall_forall in Hw. apply Hw. by apply list_elem_of_fmap_2.
  - eapply Z.le_lt_trans; [|exact Hlt]. clear.
    induction l as [|a l IH]; [done|]. rewrite filter_cons.
    destruct (decide (P a)); simpl; lia.
Qed.

End F64Facts.

(** ** The sort *)

Module PySortFacts.
Import PySort.

Section Facts.
Context {A K : Type} (lt : K → K → bool) (key : A → K) (reverse : bool).

Local Abbreviation first := (goes_first lt key reverse).
Local Abbreviation in_order := (in_order lt key reverse).
Local Abbreviation ins := (insert lt key reverse).
Local Abbreviation srt := (sorted lt key reverse).

Lemma insert_perm x l : ins x l ≡ₚ x :: l.
Proof.
  induction l as [|y l IH]; simpl; [done|].
  destruct (first y x); [|done].
  rewrite IH. apply perm_swap.
Qed.

Lemma sorted_perm l : srt l ≡ₚ l.
Proof.
  induction l as [|x l IH]; simpl; [done|].
  rewrite insert_perm. by f_equiv.
Qed.

(** A class of elements none of which has to come before another keeps
    its order. *)
Section Stable.
Context (P : A → Prop) `{!∀ a, Decision (P a)}.
Hypothesis ties : ∀ a b, P a → P b → first a b = false.

Lemma insert_filter x l : filter P (ins x l) = filter P (x :: l).
Proof.
  induction l as [|y l IH]; simpl; [done|].
  destruct (first y x) eqn:Hyx; [|done].
  rewrite filter_cons, IH, !filter_cons.
  destruct (decide (P y)) as [Hy|Hy], (decide (P x)) as [Hx|Hx]; try done.
  by rewrite ties in Hyx.
Qed.

Lemma sorted_filter l : filter P (srt l) = filter P l.
Proof.
  induction l as [|x l IH]; simpl; [done|].
  rewrite insert_filter, !filter_cons, IH. done.
Qed.
End Stable.

Section Ordered.
Hypothesis lt_asym : ∀ a b, lt a b = true → lt b a = false.
Hypothesis lt_negtrans :
  ∀ a b c, lt a b = false → lt b c = false → lt a c = false.

Lemma first_asym a b : first a b = true → in_order a b.
Proof. unfold in_order, goes_first. destruct reverse; apply lt_asym. Qed.

Lemma in_order_trans a b c : in_order a b → in_order b c → in_order a c.
Proof.
  unfold in_order, goes_first. destruct reverse; intros H1 H2.
  - exact (lt_negtrans _ _ _ H1 H2).
  - exact (lt_negtrans _ _ _ H2 H1).
Qed.

Lemma insert_sorted x l :
  StronglySorted in_order l → StronglySorted in_order (ins x l).
Proof.
  induction 1 as [|y l Hl IH Hy]; simpl.
  - repeat constructor.
  - destruct (first y x) eqn:Hyx.
    + constructor; [done|].
      rewrite insert_perm. constructor; [|done].
      by apply first_asym.
    + constructor; [by constructor|].
      constructor; [done|].
      eapply Forall_impl; [exact Hy|].
      intros z Hz. by eapply in_order_trans.
Qed.

Lemma sorted_sorted l : StronglySorted in_order (srt l).
Proof.
  induction l as [|x l IH]; simpl; [constructor|].
  by apply insert_sorted.
Qed.
End Ordered.

(** Two sorted lists whose elements of each key are the same sublists
    are the same list: a stable sort has one possible result. *)
Section Unique.
Context `{!EqDecision K}.
Hypothesis lt_tri : ∀ a b, lt a b = false → lt b a = false → a = b.

Lemma in_order_antisym a b : in_order a b → in_order b a → key a = key b.
Proof.
  unfold in_order, goes_first. destruct reverse; intros H1 H2.
  - by apply lt_tri.
  - by apply lt_tri.
Qed.

Lemma head_in_order a l b :
  StronglySorted in_order (a :: l) → b ∈ a :: l → key a = key b ∨ in_order a b.
Proof.
  intros Hs [->|Hb]%elem_of_cons; [by left|right].
  apply StronglySorted_inv in Hs as [_ Hall].
  rewrite Forall_forall in Hall. by apply Hall.
Qed.

Lemma sorted_lists_eq (l1 l2 : list A) :
  StronglySorted in_order l1 → StronglySorted in_order l2 →
  (∀ k, filter (λ a, key a = k) l1 = filter (λ a, key a = k) l2) →
  l1 = l2.
Proof.
  revert l2. induction l1 as [|a t IH]; intros [|b u] H1 H2 Hf.
  - done.
  - specialize (Hf (key b)). rewrite filter_cons_True in Hf by done.
    discriminate Hf.
  - specialize (Hf (key a)). rewrite filter_cons_True in Hf by done.
    discriminate Hf.
  - assert (Hab : key a = key b).
    { assert (Ha : a ∈ b :: u).
      { eapply (list_elem_of_filter (λ x, key x = key a)). rewrite <- Hf.
        apply list_elem_of_filter. split; [done|]. by left. }
      assert (Hb : b ∈ a :: t).
      { eapply (list_elem_of_filter (λ x, key x = key b)). rewrite Hf.
        apply list_elem_of_filter. split; [done|]. by left. }
      destruct (head_in_order _ _ _ H1 Hb) as [|Hab]; [done|].
      destruct (head_in_order _ _ _ H2 Ha) as [|Hba]; [done|].
      by apply in_order_antisym. }
    pose proof (Hf (key a)) as Hk.
    rewrite filter_cons_True in Hk by done.
    rewrite (filter_cons_True _ b) in Hk by done.
    injection Hk as <- Hk.
    f_equal. apply IH.
    + by apply StronglySorted_inv in H1 as [? _].
    + by apply StronglySorted_inv in H2 as [? _].
    + intros k. destruct (decide (key a = k)) as [<-|Hne]; [done|].
      specialize (Hf k). by rewrite !filter_cons_False in Hf.
Qed.
End Unique.
End Facts.

End PySortFacts.

(** ** Region resolver *)

Module RegionResolver.
Import S3Stat.

Lemma get_bucket_region_result aws bucket_name w w' :
  fst (get_bucket_region aws bucket_name w) = fst (get_bucket_region aws bucket_name w').
Proof.
  unfold get_bucket_region.
  destruct (get_bucket_location aws bucket_name) as [[r|]|[]]; reflexivity.
Qed.

Lemma get_bucket_region_state aws bucket_name w :
  cloudwatch_clients (snd (get_bucket_region aws bucket_name w)) = cloudwatch_clients w ∧
  constructed (snd (get_bucket_region aws bucket_name w)) = constructed w ∧
  queries (snd (get_bucket_region aws bucket_name w)) = queries w.
Proof.
  unfold get_bucket_region.
  destruct (get_bucket_location aws bucket_name) as [[r|]|[]]; done.
Qed.

(** C4 as stated fails: an empty location constraint is returned as it
    is, not as the default region. *)
Lemma empty_constraint_returned :
  get_bucket_location Scenario.empty_constraint "logs" = Ok (Some ""%string) ∧
  get_bucket_region Scenario.empty_constraint "logs" start = (Ok ""%string, start) ∧
  fst (get_bucket_region Scenario.empty_constraint "logs" start)
    ≠ Ok "us-east-1"%string.
Proof. repeat split. discriminate. Qed.

(** C4, amended: when the lookup succeeds with a null location constraint
    the result is the name us-east-1 (which is not empty) and nothing is
    printed; any other constraint is returned unchanged. *)
Theorem null_constraint_is_default :
  ∀ aws bucket_name w,
    (get_bucket_location aws bucket_name = Ok None →
       get_bucket_region aws bucket_name w = (Ok "us-east-1"%string, w) ∧
       "us-east-1"%string ≠ ""%string) ∧
    (∀ r, get_bucket_location aws bucket_name = Ok (Some r) →
       get_bucket_region aws bucket_name w = (Ok r, w)).
Proof.
  intros aws bucket_name w. unfold get_bucket_region. split.
  - intros ->. split; [reflexivity|discriminate].
  - intros r ->. reflexivity.
Qed.

Lemma null_constraint_is_default_witness :
  get_bucket_region Scenario.quiet "logs" start = (Ok "us-east-1"%string, start) ∧
  get_bucket_region Scenario.empty_constraint "logs" start = (Ok ""%string, start).
Proof.
  split.
  - apply (proj1 (null_constraint_is_default Scenario.quiet "logs"%string start)).
    reflexivity.
  - apply (proj2 (null_constraint_is_default Scenario.empty_constraint
                    "logs"%string start)).
    reflexivity.
Defined.

(** C5 as stated fails: a lookup error that is no [ClientError] leaves
    [get_bucket_region] as an exception and nothing is printed. *)
Lemma no_credentials_propagates :
  get_bucket_location Scenario.no_credentials "logs" = Raise NoCredentialsError ∧
  get_bucket_region Scenario.no_credentials "logs" start = (Raise NoCredentialsError, start).
Proof. split; reflexivity. Qed.

(** C5, amended: a [ClientError] of the lookup is absorbed, with one
    warning printed and us-east-1 returned; [get_bucket_region] raises
    exactly when the lookup raises something else, and then raises that
    same exception. *)
Theorem client_error_falls_back :
  ∀ aws bucket_name w,
    (∀ msg, get_bucket_location aws bucket_name = Raise (ClientError msg) →
       get_bucket_region aws bucket_name w =
         (Ok "us-east-1"%string,
          print (WarnRegion bucket_name (ClientError msg)) w)) ∧
    (∀ e, fst (get_bucket_region aws bucket_name w) = Raise e ↔
          get_bucket_location aws bucket_name = Raise e ∧ is_ClientError e = false).
Proof.
  intros aws bucket_name w. unfold get_bucket_region. split.
  - intros msg ->. reflexivity.
  - intros e. destruct (get_bucket_location aws bucket_name) as [r|[]]; simpl;
      split; try (intros [? ?]); try intros ?; simplify_eq; try done.
Qed.

Lemma client_error_falls_back_witness :
  get_bucket_region Scenario.access_denied "logs" start =
    (Ok "us-east-1"%string,
     print (WarnRegion "logs" (ClientError "AccessDenied")) start) ∧
  fst (get_bucket_region Scenario.no_credentials "logs" start) = Raise NoCredentialsError.
Proof.
  split.
  - apply (proj1 (client_error_falls_back Scenario.access_denied
                    "logs"%string start)).
    reflexivity.
  - apply (proj2 (client_error_falls_back Scenario.no_credentials
                    "logs"%string start)).
    split; reflexivity.
Defined.

End RegionResolver.

(** ** Bucket size resolver *)

Module SizeResolver.
Import S3Stat.

(** The loop touches nothing but the query log, to which it appends one
    query per storage type it gets to, in order; it gets to all of them
    unless it raises. *)
Lemma probe_world aws c bucket_name types :
  ∀ total_size w r w',
    probe aws c bucket_name types total_size w = (r, w') →
    cloudwatch_clients w' = cloudwatch_clients w ∧
    constructed w' = constructed w ∧
    stdout w' = stdout w ∧
    ∃ n, (n ≤ length types)%nat ∧
      queries w' = queries w ++
        map (λ t, {| q_client := c; q_bucket := bucket_name; q_storage_type := t |})
            (take n types) ∧
      (∀ v, r = Ok v → n = length types).
Proof.
  induction types as [|t rest IH]; intros total_size w r w' H; simpl in H.
  - inversion H; subst. repeat split; try done.
    exists 0%nat. rewrite app_nil_r. done.
  - assert (Hnext : ∀ total r w',
      probe aws c bucket_name rest total
        (log_query {| q_client := c; q_bucket := bucket_name;
                      q_storage_type := t |} w) = (r, w') →
      cloudwatch_clients w' = cloudwatch_clients w ∧
      constructed w' = constructed w ∧ stdout w' = stdout w ∧
      ∃ n, (n ≤ length (t :: rest))%nat ∧
        queries w' = queries w ++
          map (λ t, {| q_client := c; q_bucket := bucket_name;
                       q_storage_type := t |}) (take n (t :: rest)) ∧
        (∀ v, r = Ok v → n = length (t :: rest))).
    { intros total r0 w0 H0. apply IH in H0 as (Hc & Hk & Hs & n & Hn & Hq & Hok).
      simpl in *. repeat split; try done.
      exists (S n). split; [lia|]. split.
      - rewrite Hq, <- app_assoc. done.
      - intros v Hv. by rewrite (Hok v Hv). }
    destruct (get_metric_statistics aws c bucket_name t) as [response|e].
    + by apply Hnext in H.
    + destruct e; try (by apply Hnext in H); inversion H; subst; simpl;
        (repeat split; try done); exists 1%nat; simpl;
        (split; [lia|]); (split; [done|done]).
Qed.

Lemma acquire_client_cached aws bucket_region w c :
  cloudwatch_clients w !! bucket_region = Some c →
  acquire_client aws bucket_region w = (Ok c, w).
Proof. intros H. unfold acquire_client. by rewrite H. Qed.

Lemma acquire_client_stored aws bucket_region w c w' :
  acquire_client aws bucket_region w = (Ok c, w') →
  cloudwatch_clients w' !! bucket_region = Some c ∧
  queries w' = queries w ∧ stdout w' = stdout w.
Proof.
  unfold acquire_client.
  destruct (cloudwatch_clients w !! bucket_region) as [c0|] eqn:Hc.
  - intros [= <- <-]. done.
  - destruct (boto3_client aws bucket_region); intros [= <- <-]; simpl.
    by rewrite lookup_insert_eq.
Qed.

Lemma acquire_client_raise aws bucket_region w e w' :
  acquire_client aws bucket_region w = (Raise e, w') → w' = w.
Proof.
  unfold acquire_client.
  destruct (cloudwatch_clients w !! bucket_region); [done|].
  destruct (boto3_client aws bucket_region); by intros [= <-].
Qed.

(** C1 as stated fails: the list has 15 entries, not 14, and a bucket
    whose second query times out gets two queries, not one per entry. *)
Lemma probe_set_not_14 :
  length storage_types ≠ 14%nat ∧
  length (queries (snd (get_bucket_size Scenario.timeout "logs" "eu-west-1" start)))
    = 2%nat.
Proof. split; [discriminate|reflexivity]. Qed.

(** C1, amended: the probe set is a fixed ordered list of exactly 15
    distinct storage-class values, and whenever the resolver's [try] body
    runs to its end it has issued exactly one metric query per element, in
    list order, all for this bucket and through the client cached for the
    bucket's region. *)
Theorem probe_set_queried :
  length storage_types = 15%nat ∧
  NoDup storage_types ∧
  ∀ aws bucket_name bucket_region w total_size w',
    get_bucket_size_try aws bucket_name bucket_region w = (Ok total_size, w') →
    get_bucket_size aws bucket_name bucket_region w = (total_size, w') ∧
    ∃ c, cloudwatch_clients w' !! bucket_region = Some c ∧
      queries w' = queries w ++
        map (λ t, {| q_client := c; q_bucket := bucket_name; q_storage_type := t |})
            storage_types.
Proof.
  split; [reflexivity|]. split.
  { apply (bool_decide_unpack (NoDup storage_types)). vm_compute. exact I. }
  intros aws bucket_name bucket_region w total_size w' H.
  split; [unfold get_bucket_size; by rewrite H|].
  unfold get_bucket_size_try in H.
  destruct (acquire_client aws bucket_region w) as [[c|e] w1] eqn:Ha; [|done].
  apply acquire_client_stored in Ha as (Hc & Hq & _).
  apply probe_world in H as (Hc' & _ & _ & n & _ & Hq' & Hn).
  exists c. split; [by rewrite Hc'|].
  rewrite (Hn _ eq_refl), firstn_all in Hq'. by rewrite Hq', Hq.
Qed.

Lemma probe_set_queried_witness :
  ∃ c, cloudwatch_clients (snd (get_bucket_size Scenario.quiet "logs" "eu-west-1" start))
         !! "eu-west-1"%string = Some c ∧
    queries (snd (get_bucket_size Scenario.quiet "logs" "eu-west-1" start)) =
      queries start ++
        map (λ t, {| q_client := c; q_bucket := "logs"; q_storage_type := t |})
            storage_types.
Proof.
  destruct (proj2 (proj2 probe_set_queried) Scenario.quiet "logs"%string
              "eu-west-1"%string start 0
              (snd (get_bucket_size Scenario.quiet "logs" "eu-west-1" start)))
    as [_ H].
  - reflexivity.
  - exact H.
Defined.




End SizeResolver.

(** ** Regional client cache *)

Module ClientCache.
Import S3Stat.

Lemma cache_consistent_start : cache_consistent start.
Proof.
  repeat split; simpl; try done.
  - intros [H _]. by apply elem_of_nil in H.
  - constructor.
  - intros q H. by apply elem_of_nil in H.
Qed.

Lemma cache_consistent_ext w w' :
  cloudwatch_clients w' = cloudwatch_clients w →
  constructed w' = constructed w →
  queries w' = queries w →
  cache_consistent w → cache_consistent w'.
Proof. unfold cache_consistent. by intros -> -> ->. Qed.

Lemma acquire_client_step aws bucket_region w r w' :
  acquire_client aws bucket_region w = (r, w') →
  cache_step bucket_region w w' ∧ queries w' = queries w ∧ stdout w' = stdout w.
Proof.
  unfold acquire_client.
  destruct (cloudwatch_clients w !! bucket_region) as [c0|] eqn:Hc.
  - intros [= <- <-]. split; [by apply cache_kept|done].
  - destruct (boto3_client aws bucket_region); intros [= <- <-].
    + split; [|done]. by eapply cache_grown.
    + split; [by apply cache_kept|done].
Qed.

Lemma get_bucket_size_try_step aws bucket_name bucket_region w r w' :
  get_bucket_size_try aws bucket_name bucket_region w = (r, w') →
  cache_step bucket_region w w' ∧
  stdout w' = stdout w ∧
  ∀ q, q ∈ queries w' →
    q ∈ queries w ∨ cloudwatch_clients w' !! bucket_region = Some (q_client q).
Proof.
  unfold get_bucket_size_try.
  destruct (acquire_client aws bucket_region w) as [[c|e] w1] eqn:Ha.
  - intros Hp.
    pose proof (SizeResolver.acquire_client_stored _ _ _ _ _ Ha) as (Hc & _).
    apply acquire_client_step in Ha as (Hstep & Hq & Hs).
    apply SizeResolver.probe_world in Hp as (Hc' & Hk' & Hs' & n & _ & Hq' & _).
    split; [|split].
    + destruct Hstep as [H1 H2|c0 H0 H1 H2 H3].
      * apply cache_kept; congruence.
      * eapply cache_grown; [done|done|congruence|congruence].
    + congruence.
    + intros q. rewrite Hq', Hq, elem_of_app, list_elem_of_fmap.
      intros [H|(t & -> & _)]; [by left|right]. simpl. by rewrite Hc'.
  - intros [= <- <-].
    apply acquire_client_step in Ha as (Hstep & Hq & Hs).
    split; [done|]. split; [done|]. intros q. rewrite Hq. by left.
Qed.

Lemma get_bucket_size_step aws bucket_name bucket_region w :
  let w' := snd (get_bucket_size aws bucket_name bucket_region w) in
  cache_step bucket_region w w' ∧
  ∀ q, q ∈ queries w' →
    q ∈ queries w ∨ cloudwatch_clients w' !! bucket_region = Some (q_client q).
Proof.
  unfold get_bucket_size.
  destruct (get_bucket_size_try aws bucket_name bucket_region w) as [[v|e] w1] eqn:H;
    apply get_bucket_size_try_step in H as (Hstep & _ & Hq); simpl; [done|].
  split; [|done]. destruct Hstep as [H1 H2|c0 H0 H1 H2 H3].
  - by apply cache_kept.
  - by eapply cache_grown.
Qed.

Lemma cache_step_consistent bucket_region w w' :
  cache_step bucket_region w w' →
  (∀ q, q ∈ queries w' →
     q ∈ queries w ∨ cloudwatch_clients w' !! bucket_region = Some (q_client q)) →
  cache_consistent w → cache_consistent w'.
Proof.
  intros Hstep Hq (Hmap & Hnd & Hid & Hqs).
  destruct Hstep as [H1 H2|c H0 Hc H1 H2].
  - unfold cache_consistent. rewrite H1, H2.
    split; [done|]. split; [done|]. split; [done|].
    intros q [Hin|Hin]%Hq; [by apply Hqs|].
    rewrite H1 in Hin. by apply Hmap in Hin as [? _].
  - assert (Hfresh : ∀ c0, c0 ∈ constructed w → client_region c0 ≠ bucket_region).
    { intros c0 Hin Heq.
      assert (cloudwatch_clients w !! bucket_region = Some c0) as Hsome
        by (by apply Hmap).
      by rewrite H0 in Hsome. }
    assert (Hreg : client_region c = bucket_region) by (by subst c).
    unfold cache_consistent. rewrite H1, H2. split; [|split; [|split]].
    + intros r c0. rewrite elem_of_app, list_elem_of_singleton.
      destruct (decide (bucket_region = r)) as [<-|Hne].
      * rewrite lookup_insert_eq. split.
        -- intros [= <-]. split; [by right|done].
        -- intros [[Hin| ->] Hr]; [|done]. by apply Hfresh in Hin.
      * rewrite lookup_insert_ne by done. rewrite Hmap. split.
        -- intros [? ?]. split; [by left|done].
        -- intros [[Hin| ->] Hr]; [done|]. congruence.
    + rewrite map_app. simpl. apply NoDup_app. split; [done|]. split.
      * intros r (c0 & Hr & Hin)%list_elem_of_fmap [Hr'|[]%elem_of_nil]%elem_of_cons.
        apply (Hfresh c0 Hin). congruence.
      * apply NoDup_singleton.
    + intros i c0 Hl. apply lookup_app_Some in Hl as [Hl|[Hge Hl]].
      * by apply Hid.
      * apply list_lookup_singleton_Some in Hl as [Hi <-].
        subst c. simpl. lia.
    + intros q [Hin|Hin]%Hq.
      * apply elem_of_app. left. by apply Hqs.
      * rewrite H1, lookup_insert_eq in Hin. injection Hin as <-.
        apply elem_of_app. right. by apply list_elem_of_singleton.
Qed.

Lemma get_bucket_size_consistent aws bucket_name bucket_region w :
  cache_consistent w →
  cache_consistent (snd (get_bucket_size aws bucket_name bucket_region w)).
Proof.
  destruct (get_bucket_size_step aws bucket_name bucket_region w) as [H1 H2].
  by apply cache_step_consistent with bucket_region.
Qed.

(** The invariant holds along the loop of [main], and every client it
    constructs is for the region resolved for one of the buckets. *)
Lemma collect_consistent aws buckets :
  ∀ bucket_sizes total_size w,
    cache_consistent w →
    let w' := snd (collect aws buckets bucket_sizes total_size w) in
    cache_consistent w' ∧
    ∀ c, c ∈ constructed w' →
      c ∈ constructed w ∨
      ∃ bucket, bucket ∈ buckets ∧
        fst (get_bucket_region aws (Name bucket) start) = Ok (client_region c).
Proof.
  induction buckets as [|bucket rest IH]; intros bucket_sizes total_size w Hw; simpl.
  - split; [done|]. by left.
  - pose proof (RegionResolver.get_bucket_region_state aws (Name bucket) w)
      as (Hc & Hk & Hq).
    pose proof (RegionResolver.get_bucket_region_result aws (Name bucket) w start)
      as Hres.
    destruct (get_bucket_region aws (Name bucket) w) as [[bucket_region|e] w1];
      simpl in *.
    + pose proof (get_bucket_size_step aws (Name bucket) bucket_region w1)
        as [Hstep Hqs].
      assert (Hw1 : cache_consistent w1) by (by eapply cache_consistent_ext).
      pose proof (get_bucket_size_consistent aws (Name bucket) bucket_region w1 Hw1)
        as Hw2.
      destruct (get_bucket_size aws (Name bucket) bucket_region w1) as [size w2];
        simpl in *.
      edestruct (IH (bucket_sizes ++
                     [{| item.name := Name bucket; item.size := size;
                         item.region := bucket_region;
                         item.created := CreationDate bucket |}])
                    (F64.add total_size size) w2 Hw2) as [Hfin Hreg].
      split; [exact Hfin|].
      intros c [Hin|(b & Hb & Hbr)]%Hreg.
      * destruct Hstep as [H1 H2|c0 H0 Hc0 H1 H2].
        -- left. congruence.
        -- rewrite H2, elem_of_app, list_elem_of_singleton in Hin.
           destruct Hin as [Hin| ->]; [left; congruence|].
           right. exists bucket. split; [by left|]. subst c0. simpl. congruence.
      * right. exists b. split; [by right|done].
    + split; [by eapply cache_consistent_ext|]. intros c Hin. left. congruence.
Qed.

(** C9: the client cache is idempotent and lazy.  Acquiring the client of
    a region again, at once or after any other bucket has been resolved,
    returns the same client object and constructs nothing.  One call of
    [get_bucket_size] constructs at most one client, for the region it is
    called with, and only when the cache has none for it.  Over the whole
    loop of [main], started with the empty cache, the clients constructed
    have pairwise different regions, all queries of one region go through
    one client, and each client's region is the region resolved for one
    of the buckets processed. *)
Theorem client_cache_idempotent_lazy :
  (∀ aws bucket_region w c w1,
     acquire_client aws bucket_region w = (Ok c, w1) →
     acquire_client aws bucket_region w1 = (Ok c, w1) ∧
     ∀ bucket_name other_region,
       let w2 := snd (get_bucket_size aws bucket_name other_region w1) in
       acquire_client aws bucket_region w2 = (Ok c, w2)) ∧
  (∀ aws bucket_name bucket_region w,
     let w' := snd (get_bucket_size aws bucket_name bucket_region w) in
     constructed w' = constructed w ∨
     cloudwatch_clients w !! bucket_region = None ∧
     constructed w' = constructed w ++
       [{| client_id := length (constructed w); client_region := bucket_region |}]) ∧
  (∀ aws buckets,
     let w := snd (collect aws buckets [] 0 start) in
     NoDup (map client_region (constructed w)) ∧
     NoDup (map client_id (constructed w)) ∧
     (∀ q1 q2, q1 ∈ queries w → q2 ∈ queries w →
        client_region (q_client q1) = client_region (q_client q2) →
        q_client q1 = q_client q2) ∧
     (∀ c, c ∈ constructed w →
        ∃ bucket, bucket ∈ buckets ∧
          fst (get_bucket_region aws (Name bucket) start) = Ok (client_region c))).
Proof.
  split; [|split].
  - intros aws bucket_region w c w1 Ha.
    apply SizeResolver.acquire_client_stored in Ha as (Hc & _).
    split; [by apply SizeResolver.acquire_client_cached|].
    intros bucket_name other_region w2.
    apply SizeResolver.acquire_client_cached.
    destruct (get_bucket_size_step aws bucket_name other_region w1) as [Hstep _].
    fold w2 in Hstep. destruct Hstep as [H1 H2|c0 H0 Hc0 H1 H2].
    + by rewrite H1.
    + rewrite H1. rewrite lookup_insert_ne; [done|]. intros ->. congruence.
  - intros aws bucket_name bucket_region w w'.
    destruct (get_bucket_size_step aws bucket_name bucket_region w) as [Hstep _].
    fold w' in Hstep. destruct Hstep as [H1 H2|c0 H0 Hc0 H1 H2].
    + by left.
    + right. split; [done|]. by rewrite H2, Hc0.
  - intros aws buckets w.
    destruct (collect_consistent aws buckets [] 0 start cache_consistent_start)
      as [(Hmap & Hnd & Hid & Hqs) Hreg].
    fold w in Hmap, Hnd, Hid, Hqs, Hreg.
    split; [done|]. split; [|split].
    + apply NoDup_alt. intros i j x Hi Hj.
      change (map client_id (constructed w)) with (client_id <$> constructed w)
        in Hi, Hj.
      rewrite list_lookup_fmap in Hi, Hj.
      destruct (constructed w !! i) as [ci|] eqn:Hci; [|done].
      destruct (constructed w !! j) as [cj|] eqn:Hcj; [|done].
      simpl in Hi, Hj. apply Hid in Hci, Hcj. congruence.
    + intros q1 q2 H1%Hqs H2%Hqs Heq.
      assert (cloudwatch_clients w !! client_region (q_client q1) = Some (q_client q1))
        as E1 by (by apply Hmap).
      assert (cloudwatch_clients w !! client_region (q_client q1) = Some (q_client q2))
        as E2 by (by apply Hmap).
      congruence.
    + intros c [Hin|H]%Hreg; [|done]. by apply elem_of_nil in Hin.
Qed.

Lemma client_cache_idempotent_lazy_witness :
  let w1 := snd (acquire_client Scenario.quiet "eu-west-1" start) in
  let c := {| client_id := 0; client_region := "eu-west-1" |} in
  acquire_client Scenario.quiet "eu-west-1" w1 = (Ok c, w1) ∧
  (let w2 := snd (get_bucket_size Scenario.quiet "logs" "us-east-1" w1) in
   acquire_client Scenario.quiet "eu-west-1" w2 = (Ok c, w2)).
Proof.
  intros w1 c.
  destruct (proj1 client_cache_idempotent_lazy Scenario.quiet
              "eu-west-1"%string start c w1) as [H1 H2].
  - reflexivity.
  - split; [exact H1|]. exact (H2 "logs"%string "us-east-1"%string).
Defined.

End ClientCache.

(** ** Rollup aggregator *)

Module Rollup.
Import S3Stat.

Lemma StronglySorted_mono {A} (R1 R2 : A → A → Prop) l :
  (∀ a b, R1 a b → R2 a b) → StronglySorted R1 l → StronglySorted R2 l.
Proof.
  intros HR. induction 1 as [|a l Hl IH Ha]; constructor; [done|].
  eapply Forall_impl; [exact Ha|]. intros b. apply HR.
Qed.

Lemma Zltb_asym a b : (a <? b) = true → (b <? a) = false.
Proof. rewrite Z.ltb_lt, Z.ltb_ge. lia. Qed.

Lemma Zltb_negtrans a b c : (a <? b) = false → (b <? c) = false → (a <? c) = false.
Proof. rewrite !Z.ltb_ge. lia. Qed.

Lemma Zltb_tri a b : (a <? b) = false → (b <? a) = false → a = b.
Proof. rewrite !Z.ltb_ge. lia. Qed.

Lemma Zsum_perm l1 l2 : l1 ≡ₚ l2 → Zsum l1 = Zsum l2.
Proof. induction 1; simpl; lia. Qed.

Lemma Zsum_app l1 l2 : Zsum (l1 ++ l2) = Zsum l1 + Zsum l2.
Proof. induction l1; simpl; lia. Qed.

Lemma descending_in_order (l : list item.t) :
  StronglySorted (PySort.in_order Z.ltb item.size true) l ↔
  StronglySorted (λ a b, item.size b ≤ item.size a) l.
Proof.
  split; apply StronglySorted_mono; intros a b;
    unfold PySort.in_order, PySort.goes_first; by rewrite Z.ltb_ge.
Qed.

Lemma sort_by_size_perm (bucket_sizes : list item.t) :
  sort_by_size bucket_sizes ≡ₚ bucket_sizes.
Proof. apply PySortFacts.sorted_perm. Qed.

Lemma sort_by_size_descending (bucket_sizes : list item.t) :
  StronglySorted (λ a b, item.size b ≤ item.size a) (sort_by_size bucket_sizes).
Proof.
  apply descending_in_order, PySortFacts.sorted_sorted;
    [apply Zltb_asym|apply Zltb_negtrans].
Qed.

Lemma sort_by_size_ties (bucket_sizes : list item.t) (s : Z) :
  filter (λ x, item.size x = s) (sort_by_size bucket_sizes) =
  filter (λ x, item.size x = s) bucket_sizes.
Proof.
  apply PySortFacts.sorted_filter.
  intros a b <- Hb. unfold PySort.goes_first. rewrite Hb. apply Z.ltb_irrefl.
Qed.

(** No other list is sorted by descending size and keeps the records of
    each size in their input order: these properties force the model of
    [list.sort]. *)
Lemma sort_by_size_unique (bucket_sizes l : list item.t) :
  StronglySorted (λ a b, item.size b ≤ item.size a) l →
  (∀ s, filter (λ x, item.size x = s) l = filter (λ x, item.size x = s) bucket_sizes) →
  l = sort_by_size bucket_sizes.
Proof.
  intros Hs Hf.
  apply (PySortFacts.sorted_lists_eq Z.ltb item.size true Zltb_tri).
  - by apply descending_in_order.
  - apply descending_in_order, sort_by_size_descending.
  - intros k. by rewrite Hf, sort_by_size_ties.
Qed.

(** C7: [bucket_sizes.sort(key=size, reverse=True)] returns a permutation
    of its input in which sizes never increase and in which the records
    of any one size stand in their input order; being a function of the
    input, it gives the same output for the same input. *)
Theorem sort_by_size_stable :
  ∀ bucket_sizes : list item.t,
    sort_by_size bucket_sizes ≡ₚ bucket_sizes ∧
    StronglySorted (λ a b, item.size b ≤ item.size a) (sort_by_size bucket_sizes) ∧
    ∀ s, filter (λ x, item.size x = s) (sort_by_size bucket_sizes) =
         filter (λ x, item.size x = s) bucket_sizes.
Proof.
  intros bucket_sizes. split; [|split].
  - apply sort_by_size_perm.
  - apply sort_by_size_descending.
  - apply sort_by_size_ties.
Qed.

(** *** Per-region statistics *)

Lemma region_step_lookup (m : gmap string stats.t) (x : item.t) (r : string) :
  let region := item.region x in
  let m0 :=
    match m !! region with
    | None => <[region := {| stats.count := 0; stats.size := 0 |}]> m
    | Some _ => m
    end in
  let m1 := alter (λ s, {| stats.count := stats.count s + 1;
                           stats.size := stats.size s |}) region m0 in
  let m2 := alter (λ s, {| stats.count := stats.count s;
                           stats.size := F64.add (stats.size s) (item.size x) |})
                   region m1 in
  m2 !! r =
    if decide (item.region x = r)
    then Some {| stats.count := stats.count (default inhabitant (m !! r)) + 1;
                 stats.size := F64.add (stats.size (default inhabitant (m !! r)))
                                       (item.size x) |}
    else m !! r.
Proof.
  intros region m0 m1 m2. subst m2 m1 region.
  destruct (decide (item.region x = r)) as [<-|Hne].
  - rewrite !lookup_alter_eq. subst m0.
    destruct (m !! item.region x) as [s|] eqn:Hm.
    + by rewrite Hm.
    + by rewrite lookup_insert_eq.
  - rewrite !lookup_alter_ne by done. subst m0.
    destruct (m !! item.region x); [done|]. by rewrite lookup_insert_ne.
Qed.

(** The dict after the loop: a region met in the list has its former
    statistics (zeros when it was absent) with the number of its records
    added to the count and their sizes added, one after the other, to the
    size; other regions are as before. *)
Lemma region_stats_loop_lookup (bucket_sizes : list item.t) :
  ∀ (m : gmap string stats.t) (r : string),
    region_stats_loop bucket_sizes m !! r =
      match in_region r bucket_sizes with
      | [] => m !! r
      | l =>
          Some {| stats.count :=
                    stats.count (default inhabitant (m !! r)) + Z.of_nat (length l);
                  stats.size :=
                    Expected.sum_from (stats.size (default inhabitant (m !! r)))
                                      (map item.size l) |}
      end.
Proof.
  unfold in_region.
  induction bucket_sizes as [|x rest IH]; intros m r; [done|].
  cbn [region_stats_loop]. rewrite IH, region_step_lookup, filter_cons.
  destruct (decide (item.region x = r)) as [Hr|Hr].
  - destruct (filter (λ x0, item.region x0 = r) rest) as [|y l]; simpl.
    + done.
    + f_equal. f_equal. lia.
  - done.
Qed.

Lemma region_stats_lookup (bucket_sizes : list item.t) (r : string) :
  region_stats_loop bucket_sizes ∅ !! r =
    match in_region r bucket_sizes with
    | [] => None
    | l => Some {| stats.count := Z.of_nat (length l);
                   stats.size := Expected.float_sum (map item.size l) |}
    end.
Proof.
  rewrite region_stats_loop_lookup, lookup_empty.
  destruct (in_region r bucket_sizes); [done|]. simpl. done.
Qed.

Lemma in_region_nonempty (bucket_sizes : list item.t) (r : string) :
  in_region r bucket_sizes ≠ [] ↔ ∃ x, x ∈ bucket_sizes ∧ item.region x = r.
Proof.
  unfold in_region. split.
  - destruct (filter _ bucket_sizes) as [|x l] eqn:Hf; [done|]. intros _.
    assert (Hx : x ∈ filter (λ x, item.region x = r) bucket_sizes)
      by (rewrite Hf; by left).
    apply list_elem_of_filter in Hx as [? ?]. by exists x.
  - intros (x & Hx & Hr) Hnil.
    eapply filter_nil_not_elem_of; [exact Hnil| |exact Hx]. done.
Qed.

Lemma String_ltb_le a b : String.ltb b a = false ↔ String.le a b.
Proof.
  unfold String.le, String.leb, String.ltb.
  rewrite (String.compare_antisym a b).
  destruct (String.compare b a); simpl; split; done.
Qed.

Lemma String_ltb_asym a b : String.ltb a b = true → String.ltb b a = false.
Proof.
  unfold String.ltb. rewrite (String.compare_antisym b a).
  by destruct (String.compare a b).
Qed.

Lemma String_ltb_negtrans a b c :
  String.ltb a b = false → String.ltb b c = false → String.ltb a c = false.
Proof.
  rewrite !String_ltb_le. intros H1 H2. by transitivity b.
Qed.

Lemma sorted_regions_perm (m : gmap string stats.t) :
  sorted_regions m ≡ₚ (map_to_list m).*1.
Proof. apply PySortFacts.sorted_perm. Qed.

Lemma sorted_regions_elem (m : gmap string stats.t) (r : string) :
  r ∈ sorted_regions m ↔ is_Some (m !! r).
Proof.
  rewrite sorted_regions_perm, list_elem_of_fmap. split.
  - intros ([k v] & -> & Hin). apply elem_of_map_to_list in Hin. by exists v.
  - intros [v Hv]. exists (r, v). split; [done|]. by apply elem_of_map_to_list.
Qed.

Lemma sorted_regions_NoDup (m : gmap string stats.t) : NoDup (sorted_regions m).
Proof. rewrite sorted_regions_perm. apply NoDup_fst_map_to_list. Qed.

Lemma sorted_regions_sorted (m : gmap string stats.t) :
  StronglySorted String.le (sorted_regions m).
Proof.
  eapply StronglySorted_mono;
    [|apply PySortFacts.sorted_sorted;
        [apply String_ltb_asym|apply String_ltb_negtrans]].
  intros a b. unfold PySort.in_order, PySort.goes_first, id.
  apply String_ltb_le.
Qed.

(** Whatever the order in which the dict hands out its keys, [sorted]
    returns the same list. *)
Lemma sorted_regions_any_order (m : gmap string stats.t) (keys : list string) :
  keys ≡ₚ (map_to_list m).*1 →
  PySort.sorted String.ltb id false keys = sorted_regions m.
Proof.
  intros Hkeys. apply (StronglySorted_unique String.le).
  - eapply StronglySorted_mono;
      [|apply PySortFacts.sorted_sorted;
          [apply String_ltb_asym|apply String_ltb_negtrans]].
    intros a b. unfold PySort.in_order, PySort.goes_first, id.
    apply String_ltb_le.
  - apply sorted_regions_sorted.
  - by rewrite PySortFacts.sorted_perm, sorted_regions_perm.
Qed.

Lemma region_rows_regions (m : gmap string stats.t) :
  (region_rows m).*1 = sorted_regions m.
Proof.
  unfold region_rows. rewrite <- list_fmap_compose. apply list_fmap_id.
Qed.

Lemma region_rows_elem (m : gmap string stats.t) (r : string) (s : stats.t) :
  (r, s) ∈ region_rows m ↔ m !! r = Some s.
Proof.
  unfold region_rows. rewrite list_elem_of_fmap. split.
  - intros (r0 & [= <- ->] & [v Hv]%sorted_regions_elem).
    by rewrite (lookup_total_correct _ _ _ Hv).
  - intros Hs. exists r. split.
    + by rewrite (lookup_total_correct _ _ _ Hs).
    + apply sorted_regions_elem. by exists s.
Qed.

(** C8 as stated fails: of these three records of one region, holding
    2^53, 1 and 1 bytes, the row carries 2^53 bytes where the sum of their
    sizes is 2^53 + 2: each addition of 1 to 2^53 is rounded away.  The
    same records in the reverse order give a row of 2^53 + 2 bytes, so
    the total is not a function of the set of records. *)
Lemma region_total_rounds :
  region_rows (region_stats_loop Petabytes.records ∅) =
    [ ("us-east-1"%string,
       {| stats.count := 3; stats.size := F64.of_Z (2 ^ 53) |}) ] ∧
  in_region "us-east-1" Petabytes.records = Petabytes.records ∧
  Zsum (map item.size Petabytes.records) = F64.of_Z (2 ^ 53 + 2) ∧
  F64.of_Z (2 ^ 53) ≠ Zsum (map item.size Petabytes.records) ∧
  region_rows (region_stats_loop (reverse Petabytes.records) ∅) =
    [ ("us-east-1"%string,
       {| stats.count := 3; stats.size := F64.of_Z (2 ^ 53 + 2) |}) ].
Proof.
  split; [by vm_compute|]. split; [by vm_compute|]. split; [by vm_compute|].
  split; [|by vm_compute].
  intros H. vm_compute in H. discriminate H.
Qed.

(** C8, amended: the rows of the per-region summary have pairwise
    different regions, come in ascending (lexicographic) order of region
    name, are there for exactly the regions of the records, and each
    carries the number of records of its region and the float sum of
    their sizes, added from the left in list order; this is the sum of
    their sizes whenever these are whole numbers of bytes whose absolute
    values add up to less than 2^53. *)
Theorem region_rollups :
  ∀ bucket_sizes : list item.t,
    let rows := region_rows (region_stats_loop bucket_sizes ∅) in
    NoDup rows.*1 ∧
    StronglySorted String.le rows.*1 ∧
    (∀ region, region ∈ rows.*1 ↔
       ∃ x, x ∈ bucket_sizes ∧ item.region x = region) ∧
    (∀ region stats, (region, stats) ∈ rows →
       stats.count stats = Z.of_nat (length (in_region region bucket_sizes)) ∧
       stats.size stats =
         Expected.float_sum (map item.size (in_region region bucket_sizes)) ∧
       (Expected.adds_exactly (map item.size (in_region region bucket_sizes)) →
        stats.size stats = Zsum (map item.size (in_region region bucket_sizes)))).
Proof.
  intros bucket_sizes rows. subst rows. rewrite region_rows_regions.
  split; [apply sorted_regions_NoDup|].
  split; [apply sorted_regions_sorted|]. split.
  - intros region. rewrite sorted_regions_elem, region_stats_lookup.
    rewrite <- in_region_nonempty.
    destruct (in_region region bucket_sizes); split; done.
  - intros region stats Hrow. apply region_rows_elem in Hrow.
    rewrite region_stats_lookup in Hrow.
    destruct (in_region region bucket_sizes) as [|x l] eqn:Hr; [done|].
    rewrite <- Hr in Hrow. injection Hrow as <-. cbn [stats.count stats.size].
    rewrite Hr. split; [done|]. split; [done|].
    apply F64Facts.float_sum_exact.
Qed.

Lemma region_rollups_witness :
  let bucket_sizes := details Scenario.three_buckets_report in
  let rows := region_rows (region_stats_loop bucket_sizes ∅) in
  rows = by_region Scenario.three_buckets_report ∧
  stats.size {| stats.count := 2; stats.size := F64.of_Z 500 |} =
    Zsum (map item.size (in_region "us-east-1" bucket_sizes)).
Proof.
  intros bucket_sizes rows.
  assert (Hrows : rows = by_region Scenario.three_buckets_report) by (by vm_compute).
  split; [exact Hrows|].
  apply (proj2 (proj2 (proj2 (region_rollups bucket_sizes))) "us-east-1"%string).
  - fold rows. rewrite Hrows. right. by left.
  - split.
    + repeat constructor; [by exists 500|by exists 0].
    + by vm_compute.
Defined.

(** *** Totals *)

Lemma Zsum_pointwise {A} (f g : A → Z) (l : list A) :
  Zsum (map (λ a, f a + g a) l) = Zsum (map f l) + Zsum (map g l).
Proof. induction l; simpl; lia. Qed.

Lemma Zsum_zero {A} (l : list A) : Zsum (map (λ _, 0) l) = 0.
Proof. induction l; simpl; lia. Qed.

Lemma Zsum_single (k : string) (v : Z) (l : list string) :
  NoDup l →
  Zsum (map (λ r, if decide (k = r) then v else 0) l) = if decide (k ∈ l) then v else 0.
Proof.
  induction 1 as [|r l Hr Hl IH]; simpl; [done|].
  rewrite IH.
  destruct (decide (k = r)) as [Heq|Hne], (decide (k ∈ l)) as [Hin|Hin],
    (decide (k ∈ r :: l)) as [Hin'|Hin']; try lia; exfalso.
  - by subst.
  - by subst.
  - apply Hin'. subst. by left.
  - apply Hin'. by right.
  - by apply elem_of_cons in Hin' as [?|?].
Qed.

(** Summing region by region over distinct regions that cover the list
    is summing over the list. *)
Lemma Zsum_by_region (regions : list string) (bucket_sizes : list item.t) :
  NoDup regions →
  (∀ x, x ∈ bucket_sizes → item.region x ∈ regions) →
  Zsum (map (λ r, Zsum (map item.size (in_region r bucket_sizes))) regions) =
  Zsum (map item.size bucket_sizes).
Proof.
  intros Hnd. unfold in_region.
  induction bucket_sizes as [|x rest IH]; intros Hcover; simpl.
  - apply Zsum_zero.
  - assert (Hx : item.region x ∈ regions) by (apply Hcover; by left).
    rewrite <- IH by (intros y Hy; apply Hcover; by right).
    transitivity
      (Zsum (map (λ r, (if decide (item.region x = r) then item.size x else 0) +
                       Zsum (map item.size
                               (filter (λ y, item.region y = r) rest))) regions)).
    + f_equal. apply map_ext. intros r. rewrite filter_cons.
      destruct (decide (item.region x = r)); simpl; lia.
    + rewrite Zsum_pointwise, (Zsum_single _ _ _ Hnd), decide_True by done.
      done.
Qed.

Lemma row_size (bucket_sizes : list item.t) (r : string) :
  stats.size (region_stats_loop bucket_sizes ∅ !!! r) =
    Expected.float_sum (map item.size (in_region r bucket_sizes)).
Proof.
  unfold lookup_total, map_lookup_total. rewrite region_stats_lookup.
  by destruct (in_region r bucket_sizes).
Qed.

Lemma region_rows_total (bucket_sizes : list item.t) :
  Expected.adds_exactly (map item.size bucket_sizes) →
  Zsum (map (λ row, stats.size row.2)
            (region_rows (region_stats_loop bucket_sizes ∅))) =
  Zsum (map item.size bucket_sizes).
Proof.
  intros Hexact. set (m := region_stats_loop bucket_sizes ∅).
  rewrite <- (Zsum_by_region (sorted_regions m)).
  - unfold region_rows.
    change (map ?f (?g <$> ?l)) with (map f (map g l)). rewrite map_map.
    f_equal. apply map_ext. intros r. cbn [snd]. subst m.
    rewrite row_size. apply F64Facts.float_sum_exact.
    by apply F64Facts.adds_exactly_filter.
  - apply sorted_regions_NoDup.
  - intros x Hx. apply sorted_regions_elem. subst m.
    rewrite region_stats_lookup.
    destruct (in_region (item.region x) bucket_sizes) eqn:Hr; [|by eexists].
    exfalso. revert Hr. apply in_region_nonempty. by exists x.
Qed.

(** The total of the loop is the float sum, in listing order, of the
    sizes of the records it adds. *)
Lemma collect_total aws buckets :
  ∀ bucket_sizes total_size w records total w',
    collect aws buckets bucket_sizes total_size w = (Ok (records, total), w') →
    ∃ new, records = bucket_sizes ++ new ∧
      total = Expected.sum_from total_size (map item.size new).
Proof.
  induction buckets as [|bucket rest IH];
    intros bucket_sizes total_size w records total w' H; cbn [collect] in H.
  - injection H as <- <- _. exists []. by rewrite app_nil_r.
  - destruct (get_bucket_region aws (Name bucket) w) as [[bucket_region|e] w1];
      [|done].
    destruct (get_bucket_size aws (Name bucket) bucket_region w1) as [size w2].
    apply IH in H as (new & -> & ->).
    eexists (_ :: new). split; [by rewrite <- app_assoc|done].
Qed.

(** C2 as stated fails: three buckets of one region hold 1, 1 and 2^53
    bytes.  Added in listing order they give a grand total of 2^53 + 2;
    the region's row, added in the sorted order 2^53, 1, 1, carries 2^53. *)
Lemma grand_total_differs_from_rollup :
  fst (main Petabytes.account) = Finished Petabytes.report ∧
  grand_total Petabytes.report = F64.of_Z (2 ^ 53 + 2) ∧
  Zsum (map (λ row, stats.size row.2) (by_region Petabytes.report))
    = F64.of_Z (2 ^ 53) ∧
  grand_total Petabytes.report ≠
    Zsum (map (λ row, stats.size row.2) (by_region Petabytes.report)).
Proof.
  split; [by vm_compute|]. split; [done|]. split; [by vm_compute|].
  intros H. vm_compute in H. discriminate H.
Qed.

(** C2, amended: whenever the run gets to its report and the sizes of
    the bucket records are whole numbers of bytes whose absolute values
    add up to less than 2^53, the grand total is the sum of the sizes of
    the bucket records listed and also the sum of the totals of the
    per-region rows. *)
Theorem grand_total_consistent :
  ∀ aws report w,
    main aws = (Finished report, w) →
    Expected.adds_exactly (map item.size (details report)) →
    grand_total report = Zsum (map item.size (details report)) ∧
    grand_total report = Zsum (map (λ row, stats.size row.2) (by_region report)).
Proof.
  intros aws report w. unfold main.
  destruct (boto3_s3 aws) as [s3_client|e]; [|done].
  destruct (list_buckets aws) as [[|b buckets]|e]; [done| |done].
  destruct (collect aws (b :: buckets) [] 0 start) as [[[records total]|e] w1] eqn:Hc;
    [|done].
  intros [= <- <-]. cbn [details by_region grand_total]. intros Hexact.
  apply collect_total in Hc as (new & -> & ->). cbn [app] in *.
  pose proof (Permutation_map item.size (sort_by_size_perm new)) as Hperm.
  rewrite (region_rows_total _ Hexact).
  assert (Expected.sum_from 0 (map item.size new) =
          Zsum (map item.size (sort_by_size new))) as ->; [|done].
  rewrite (Zsum_perm _ _ Hperm).
  apply (F64Facts.float_sum_exact (map item.size new)).
  exact (F64Facts.adds_exactly_perm _ _ Hperm Hexact).
Qed.

Lemma grand_total_consistent_witness :
  main Scenario.three_buckets =
    (Finished Scenario.three_buckets_report, snd (main Scenario.three_buckets)) ∧
  grand_total Scenario.three_buckets_report =
    Zsum (map item.size (details Scenario.three_buckets_report)) ∧
  grand_total Scenario.three_buckets_report =
    Zsum (map (λ row, stats.size row.2) (by_region Scenario.three_buckets_report)).
Proof.
  assert (H : main Scenario.three_buckets =
              (Finished Scenario.three_buckets_report,
               snd (main Scenario.three_buckets)))
    by (vm_compute; reflexivity).
  split; [exact H|].
  apply (grand_total_consistent Scenario.three_buckets
           Scenario.three_buckets_report _ H).
  split.
  - repeat constructor; [by exists 1500|by exists 500|by exists 0].
  - by vm_compute.
Defined.

End Rollup.

(** ** Size formatter *)

Module Formatter.
Import S3Stat.
Local Open Scope Q_scope.

Lemma Qltb_lt x y : Qltb x y = true ↔ x < y.
Proof.
  unfold Qltb. rewrite negb_true_iff, <- not_true_iff_false, Qle_bool_iff.
  split; [apply Qnot_le_lt|apply Qlt_not_le].
Qed.

Lemma Qltb_ge x y : Qltb x y = false ↔ y <= x.
Proof. unfold Qltb. rewrite negb_false_iff. apply Qle_bool_iff. Qed.

Lemma divided_succ k x : divided (S k) x = divided k (x / 1024).
Proof. unfold divided. exact (Nat.iter_succ_r k (λ v : Q, v / 1024) x). Qed.

Lemma divided_nonneg k x : 0 <= x → 0 <= divided k x.
Proof.
  intros Hx. induction k as [|k IH]; [done|].
  unfold divided in *. simpl. apply Qmult_le_0_compat; [exact IH|].
  apply Qinv_le_0_compat. discriminate.
Qed.

(** The loop as a whole: it stops at the first unit for which the value,
    divided once per unit passed, is below 1024, or at the end of the
    list. *)
Lemma format_size_from_spec (labels : list string) :
  ∀ x, ∃ k, (k ≤ length labels)%nat ∧
    format_size_from labels x =
      fmt_2f (divided k x) +:+ " " +:+ nth k labels "EB"%string ∧
    (∀ j, (j < k)%nat → 1024 <= divided j x) ∧
    ((k < length labels)%nat → divided k x < 1024).
Proof.
  induction labels as [|unit rest IH]; intros x; simpl.
  - exists 0%nat. split; [lia|]. split; [done|]. split; intros; lia.
  - destruct (Qltb x 1024) eqn:Hlt.
    + exists 0%nat. split; [lia|]. split; [done|]. split; [lia|].
      intros _. by apply Qltb_lt.
    + destruct (IH (x / 1024)) as (k & Hk & Heq & Hge & Hlt').
      exists (S k). rewrite divided_succ. split; [lia|]. split; [exact Heq|].
      split.
      * intros [|j] Hj; [by apply Qltb_ge|].
        rewrite divided_succ. apply Hge. lia.
      * intros Hk'. apply Hlt'. lia.
Qed.

(** *** The numeral *)

Lemma string_of_uint_digits d : all_digits (NilEmpty.string_of_uint d).
Proof.
  unfold all_digits.
  induction d; simpl; constructor; (reflexivity || assumption).
Qed.

Lemma decimal_nonempty n : decimal n ≠ ""%string.
Proof.
  unfold decimal.
  assert (H : N.to_uint (Z.to_N n) ≠ Decimal.Nil).
  { destruct (Z.to_N n); [discriminate|]. apply DecimalPos.Unsigned.to_uint_nonnil. }
  destruct (N.to_uint (Z.to_N n)); [done|discriminate..].
Qed.

Lemma digit_is_digit (n : Z) : (0 ≤ n < 10)%Z → is_digit (digit n) = true.
Proof.
  intros H.
  assert (n = 0 ∨ n = 1 ∨ n = 2 ∨ n = 3 ∨ n = 4 ∨
          n = 5 ∨ n = 6 ∨ n = 7 ∨ n = 8 ∨ n = 9)%Z
    as [->|[->|[->|[->|[->|[->|[->|[->|[->| ->]]]]]]]]] by lia; reflexivity.
Qed.

Lemma fmt_2f_places x : two_decimal_places (Qltb x 0) (fmt_2f x).
Proof.
  unfold fmt_2f. set (h := round_half_even (Qabs x * 100)).
  exists (decimal (h / 100)), (digit (h mod 100 / 10)), (digit (h mod 10)).
  split; [done|]. split; [apply decimal_nonempty|].
  split; [apply string_of_uint_digits|].
  split; apply digit_is_digit.
  - pose proof (Z.mod_pos_bound h 100 eq_refl).
    split; [apply Z.div_pos; lia|apply Z.div_lt_upper_bound; lia].
  - apply Z.mod_pos_bound. lia.
Qed.

(** The rendering does not depend on the fraction chosen for a rational. *)
Lemma round_half_even_compat x y : x == y → round_half_even x = round_half_even y.
Proof.
  intros H. unfold round_half_even.
  rewrite (Qfloor_comp _ _ H).
  assert (Hc : x - inject_Z (Qfloor y) == y - inject_Z (Qfloor y)) by (by rewrite H).
  by rewrite (Qcompare_comp _ _ Hc _ _ (Qeq_refl (1 # 2))).
Qed.

Lemma Qltb_compat x y z : x == y → Qltb x z = Qltb y z.
Proof.
  intros H. unfold Qltb. f_equal.
  apply eq_true_iff_eq. rewrite !Qle_bool_iff. by rewrite H.
Qed.

Lemma fmt_2f_compat x y : x == y → fmt_2f x = fmt_2f y.
Proof.
  intros H. unfold fmt_2f.
  assert (Ha : Qabs x * 100 == Qabs y * 100) by (by rewrite H).
  by rewrite (round_half_even_compat _ _ Ha), (Qltb_compat _ _ 0 H).
Qed.

(** The integer rendered is a nearest one. *)
Lemma round_half_even_nearest x :
  Qabs (inject_Z (round_half_even x) - x) <= 1 # 2.
Proof.
  pose proof (Qfloor_le x) as Hlo. pose proof (Qlt_floor x) as Hhi.
  rewrite inject_Z_plus in Hhi. change (inject_Z 1) with 1 in Hhi.
  unfold round_half_even.
  destruct (Qcompare_spec (x - inject_Z (Qfloor x)) (1 # 2)) as [He|Hl|Hg];
    [destruct (Z.even (Qfloor x))|..];
    rewrite ?inject_Z_plus; change (inject_Z 1) with 1;
    apply Qabs_Qle_condition; split; lra.
Qed.

Lemma divided_power k x : divided k x == x / 1024 ^ Z.of_nat k.
Proof.
  induction k as [|k IH].
  - unfold divided. simpl. field.
  - change (divided (S k) x) with (divided k x / 1024). rewrite IH.
    rewrite Nat2Z.inj_succ, <- Z.add_1_r, Qpower_plus by discriminate.
    field. apply Qpower_not_0. discriminate.
Qed.

(** C6: for a non-negative value [format_size] divides by 1024 once per
    unit passed, for as long as the value is at least 1024 and units of
    B, KB, MB, GB, TB, PB remain, and labels the result with the unit it
    stopped at, EB when the six are used up; the number is rendered
    without a sign and with exactly two decimal places.  The four sample
    values render as 0.00 B, 1.00 KB, 1.50 KB and 1.00 PB. *)
Theorem format_size_scales :
  (∀ x : Q, 0 <= x →
     ∃ k, (k ≤ 6)%nat ∧
       format_size x =
         fmt_2f (divided k x) +:+ " " +:+
         nth k ["B"; "KB"; "MB"; "GB"; "TB"; "PB"]%string "EB"%string ∧
       (∀ j, (j < k)%nat → 1024 <= divided j x) ∧
       ((k < 6)%nat → divided k x < 1024) ∧
       two_decimal_places false (fmt_2f (divided k x))) ∧
  format_size 0 = "0.00 B"%string ∧
  format_size 1024 = "1.00 KB"%string ∧
  format_size 1536 = "1.50 KB"%string ∧
  format_size (inject_Z (1024 ^ 5)) = "1.00 PB"%string.
Proof.
  split; [|repeat split; vm_compute; reflexivity].
  intros x Hx. unfold format_size.
  destruct (format_size_from_spec units x) as (k & Hk & Heq & Hge & Hlt).
  exists k. split; [exact Hk|]. split; [exact Heq|]. split; [exact Hge|].
  split; [exact Hlt|].
  assert (Hs : Qltb (divided k x) 0 = false)
    by (apply Qltb_ge; by apply divided_nonneg).
  rewrite <- Hs. apply fmt_2f_places.
Qed.

Lemma format_size_scales_witness :
  ∃ k, (k ≤ 6)%nat ∧
    format_size (5000000 # 1) =
      fmt_2f (divided k (5000000 # 1)) +:+ " " +:+
      nth k ["B"; "KB"; "MB"; "GB"; "TB"; "PB"]%string "EB"%string ∧
    (∀ j, (j < k)%nat → 1024 <= divided j (5000000 # 1)) ∧
    ((k < 6)%nat → divided k (5000000 # 1) < 1024) ∧
    two_decimal_places false (fmt_2f (divided k (5000000 # 1))).
Proof.
  apply (proj1 format_size_scales (5000000 # 1)). discriminate.
Defined.

(** On a tie the even neighbour is taken. *)
Lemma round_half_even_tie x :
  Qabs (inject_Z (round_half_even x) - x) == 1 # 2 →
  Z.even (round_half_even x) = true.
Proof.
  pose proof (Qfloor_le x) as Hlo. pose proof (Qlt_floor x) as Hhi.
  rewrite inject_Z_plus in Hhi. change (inject_Z 1) with 1 in Hhi.
  unfold round_half_even.
  destruct (Qcompare_spec (x - inject_Z (Qfloor x)) (1 # 2)) as [He|Hl|Hg].
  - intros _. destruct (Z.even (Qfloor x)) eqn:E; [done|].
    by rewrite Z.even_add, E.
  - intros H. exfalso. rewrite Qabs_neg in H by lra. lra.
  - intros H. exfalso. rewrite inject_Z_plus in H.
    change (inject_Z 1) with 1 in H. rewrite Qabs_pos in H by lra. lra.
Qed.

Lemma round_half_even_nonneg x : 0 <= x → (0 ≤ round_half_even x)%Z.
Proof.
  intros Hx. pose proof (round_half_even_nearest x) as Hn.
  apply Qabs_Qle_condition in Hn as [Hn _].
  assert (H : inject_Z (-1) < inject_Z (round_half_even x))
    by (change (inject_Z (-1)) with (-1); lra).
  rewrite <- Zlt_Qlt in H. lia.
Qed.

(** C10: for a negative value [format_size] returns at the first unit:
    the value itself, undivided, rendered with a minus sign and exactly
    two decimal places, followed by the unit B.  The digits are those of
    the number of hundredths nearest to the absolute value, the even one
    of the two when it lies half-way: the integer part in decimal, a
    point, then the tens and the units of the hundredths.  So -2.5 gives
    -2.50 B, -2048 gives -2048.00 B, -0.001 gives -0.00 B, and the ties
    -0.125 and -0.375 give -0.12 B and -0.38 B. *)
Theorem format_size_negative :
  (∀ x : Q, x < 0 →
     format_size x = fmt_2f x +:+ " B" ∧
     two_decimal_places true (fmt_2f x) ∧
     ∃ h : Z,
       (0 ≤ h)%Z ∧
       Qabs (inject_Z h - (- x) * 100) <= 1 # 2 ∧
       (Qabs (inject_Z h - (- x) * 100) == 1 # 2 → Z.even h = true) ∧
       fmt_2f x =
         "-" +:+ decimal (h / 100) +:+ "." +:+
         String (digit (h mod 100 / 10)) (String (digit (h mod 10)) "")) ∧
  format_size (-5 # 2) = "-2.50 B"%string ∧
  format_size (-2048 # 1) = "-2048.00 B"%string ∧
  format_size (-1 # 1000) = "-0.00 B"%string ∧
  format_size (-1 # 8) = "-0.12 B"%string ∧
  format_size (-3 # 8) = "-0.38 B"%string.
Proof.
  split; [|repeat split; vm_compute; reflexivity].
  intros x Hx.
  assert (H1 : Qltb x 1024 = true).
  { apply Qltb_lt. eapply Qlt_trans; [exact Hx|reflexivity]. }
  assert (H0 : Qltb x 0 = true) by (by apply Qltb_lt).
  split; [|split].
  - unfold format_size. simpl. by rewrite H1.
  - rewrite <- H0. apply fmt_2f_places.
  - assert (Ha : Qabs x * 100 == (- x) * 100).
    { rewrite Qabs_neg; [reflexivity|by apply Qlt_le_weak]. }
    exists (round_half_even ((- x) * 100)). split; [|split; [|split]].
    + apply round_half_even_nonneg. lra.
    + apply round_half_even_nearest.
    + apply round_half_even_tie.
    + unfold fmt_2f. by rewrite H0, (round_half_even_compat _ _ Ha).
Qed.

Lemma format_size_negative_witness :
  (-5 # 2) < 0 ∧
  format_size (-5 # 2) = "-2.50 B"%string ∧
  two_decimal_places true "-2.50" ∧
  ∃ h : Z,
    Qabs (inject_Z h - (- (-5 # 2)) * 100) <= 1 # 2 ∧
    fmt_2f (-5 # 2) =
      "-" +:+ decimal (h / 100) +:+ "." +:+
      String (digit (h mod 100 / 10)) (String (digit (h mod 10)) "").
Proof.
  assert (Hneg : (-5 # 2) < 0) by reflexivity.
  destruct (proj1 format_size_negative (-5 # 2) Hneg)
    as (Hfmt & Hplaces & h & _ & Hnear & _ & Hdigits).
  split; [exact Hneg|]. split; [|split].
  - rewrite Hfmt. vm_compute. reflexivity.
  - exact Hplaces.
  - exists h. split; [exact Hnear|exact Hdigits].
Defined.

End Formatter.

(** ** Which datapoint counts *)

Module Latest.
Import S3Stat.

Local Abbreviation by_time := (PySort.sorted Z.ltb Timestamp true).

Lemma head_insert (x : Datapoint) (l : list Datapoint) :
  head (PySort.insert Z.ltb Timestamp true x l) =
    Some match head l with
         | None => x
         | Some y => if Timestamp x <? Timestamp y then y else x
         end.
Proof.
  destruct l as [|y l]; simpl; [done|].
  unfold PySort.goes_first. by destruct (Timestamp x <? Timestamp y).
Qed.

Lemma by_time_cons (d : Datapoint) (rest : list Datapoint) :
  by_time (d :: rest) = PySort.insert Z.ltb Timestamp true d (by_time rest).
Proof. reflexivity. Qed.

Lemma newest_from_head (best : Datapoint) (rest : list Datapoint) :
  Expected.newest_from best rest =
    match head (by_time rest) with
    | None => best
    | Some y => if Timestamp best <? Timestamp y then y else best
    end.
Proof.
  revert best. induction rest as [|d rest IH]; intros best; [done|].
  cbn [Expected.newest_from]. rewrite IH, by_time_cons, head_insert.
  destruct (head (by_time rest)) as [y|].
  - destruct (Z.ltb_spec (Timestamp best) (Timestamp d));
      destruct (Z.ltb_spec (Timestamp d) (Timestamp y));
      repeat match goal with
             | |- context [?a <? ?b] => destruct (Z.ltb_spec a b)
             end; try done; lia.
  - done.
Qed.

(** The head of the sorted response is the datapoint [newest] picks. *)
Lemma head_sorted_newest (datapoints : list Datapoint) :
  head (by_time datapoints) = Expected.newest datapoints.
Proof.
  destruct datapoints as [|d rest]; [done|].
  cbn [Expected.newest].
  by rewrite by_time_cons, head_insert, newest_from_head.
Qed.

(** The first datapoint of a response among those with the greatest
    timestamp. *)
Lemma newest_first_max (datapoints : list Datapoint) (d : Datapoint) :
  head (by_time datapoints) = Some d →
  ∃ l1 l2, datapoints = l1 ++ d :: l2 ∧
    Forall (λ d', Timestamp d' < Timestamp d) l1 ∧
    Forall (λ d', Timestamp d' ≤ Timestamp d) l2.
Proof.
  revert d. induction datapoints as [|x rest IH]; intros d; [done|].
  rewrite by_time_cons, head_insert.
  destruct (head (by_time rest)) as [y|] eqn:Hy.
  - destruct (IH y eq_refl) as (l1 & l2 & -> & H1 & H2).
    destruct (Z.ltb_spec (Timestamp x) (Timestamp y)); intros [= <-].
    + exists (x :: l1), l2. split; [done|]. split; [by constructor|done].
    + exists [], (l1 ++ y :: l2). split; [done|]. split; [constructor|].
      apply Forall_app. split.
      * eapply Forall_impl; [exact H1|]. simpl. intros. lia.
      * constructor; [done|]. eapply Forall_impl; [exact H2|]. simpl. intros. lia.
  - intros [= <-]. exists [], rest. split; [done|]. split; [constructor|].
    destruct rest as [|z rest]; [constructor|].
    by rewrite by_time_cons, head_insert in Hy.
Qed.

Lemma probe_data aws c bucket_name storage_type rest total_size w datapoints :
  get_metric_statistics aws c bucket_name storage_type = Ok datapoints →
  probe aws c bucket_name (storage_type :: rest) total_size w =
  probe aws c bucket_name rest
    (Expected.absorb total_size (Ok datapoints))
    (log_query {| q_client := c; q_bucket := bucket_name;
                  q_storage_type := storage_type |} w).
Proof.
  intros H. cbn [probe]. rewrite H. unfold Expected.absorb.
  rewrite <- head_sorted_newest.
  destruct datapoints as [|d l]; [done|].
  destruct (by_time (d :: l)) as [|d0 l0] eqn:Hs; [|done].
  pose proof (head_insert d (by_time l)) as Hh.
  by rewrite <- by_time_cons, Hs in Hh.
Qed.

Lemma probe_error aws c bucket_name storage_type rest total_size w msg :
  get_metric_statistics aws c bucket_name storage_type = Raise (ClientError msg) →
  probe aws c bucket_name (storage_type :: rest) total_size w =
  probe aws c bucket_name rest
    (Expected.absorb total_size (Raise (ClientError msg)))
    (log_query {| q_client := c; q_bucket := bucket_name;
                  q_storage_type := storage_type |} w).
Proof. intros H. cbn [probe]. by rewrite H. Qed.

(** X1: for a storage class whose query returns datapoints, the amount
    added (as floats add) to the running total is the Average of the
    datapoint with the greatest Timestamp and, when several share it, of
    the one that comes first in the response; the loop then goes on. *)
Theorem latest_datapoint_counts :
  ∀ aws c bucket_name storage_type rest total_size w datapoints,
    get_metric_statistics aws c bucket_name storage_type = Ok datapoints →
    datapoints ≠ [] →
    ∃ l1 d l2, datapoints = l1 ++ d :: l2 ∧
      Forall (λ d', Timestamp d' < Timestamp d) l1 ∧
      Forall (λ d', Timestamp d' ≤ Timestamp d) l2 ∧
      probe aws c bucket_name (storage_type :: rest) total_size w =
      probe aws c bucket_name rest (F64.add total_size (Average d))
        (log_query {| q_client := c; q_bucket := bucket_name;
                      q_storage_type := storage_type |} w).
Proof.
  intros aws c bucket_name storage_type rest total_size w datapoints H Hne.
  rewrite (probe_data _ _ _ _ _ _ _ _ H). unfold Expected.absorb.
  rewrite <- head_sorted_newest.
  destruct (head (by_time datapoints)) as [d|] eqn:Hd.
  - destruct (newest_first_max _ _ Hd) as (l1 & l2 & Heq & H1 & H2).
    by exists l1, d, l2.
  - destruct datapoints as [|x l]; [done|].
    by rewrite by_time_cons, head_insert in Hd.
Qed.

Lemma latest_datapoint_counts_witness :
  let c := {| client_id := 0; client_region := "us-east-1" |} in
  ∃ l1 d l2,
    [Scenario.at_time 1 400; Scenario.at_time 3 500; Scenario.at_time 2 450]
      = l1 ++ d :: l2 ∧
    Forall (λ d', Timestamp d' < Timestamp d) l1 ∧
    Forall (λ d', Timestamp d' ≤ Timestamp d) l2 ∧
    probe Scenario.three_buckets c "alpha" ["StandardStorage"]%string 0 start =
    probe Scenario.three_buckets c "alpha" [] (F64.add 0 (Average d))
      (log_query {| q_client := c; q_bucket := "alpha";
                    q_storage_type := "StandardStorage" |} start).
Proof.
  intros c.
  apply (latest_datapoint_counts Scenario.three_buckets c "alpha"%string
           "StandardStorage"%string [] 0 start); [reflexivity|discriminate].
Defined.

Lemma probe_total aws c bucket_name types :
  ∀ total_size w v w',
    probe aws c bucket_name types total_size w = (Ok v, w') →
    v = fold_left Expected.absorb
          (map (λ t, get_metric_statistics aws c bucket_name t) types)
          total_size.
Proof.
  induction types as [|t rest IH]; intros total_size w v w' H.
  - simpl in *. by injection H as <- _.
  - cbn [map fold_left].
    destruct (get_metric_statistics aws c bucket_name t) as [dps|e] eqn:Hq.
    + rewrite (probe_data _ _ _ _ _ _ _ _ Hq) in H. by apply IH in H.
    + destruct e as [msg| |msg];
        [|cbn [probe] in H; by rewrite Hq in H..].
      rewrite (probe_error _ _ _ _ _ _ _ _ Hq) in H. by apply IH in H.
Qed.

(** X2: when the resolver's [try] body runs to its end, the size it
    returns is the running total, started at 0, after the answers for
    the 15 storage classes in the order of the list: each answer with
    datapoints adds (as floats add) the Average of its newest datapoint,
    an empty answer or a [ClientError] leaves the total as it is.  When
    these Averages are whole numbers of bytes whose absolute values add
    up to less than 2^53, the size is their sum. *)
Theorem bucket_size_is_sum :
  ∀ aws bucket_name bucket_region w total_size w',
    get_bucket_size_try aws bucket_name bucket_region w = (Ok total_size, w') →
    ∃ c, cloudwatch_clients w' !! bucket_region = Some c ∧
      let answers :=
        map (λ t, get_metric_statistics aws c bucket_name t) storage_types in
      fst (get_bucket_size aws bucket_name bucket_region w) =
        fold_left Expected.absorb answers 0 ∧
      (Expected.adds_exactly (map Expected.worth answers) →
       fst (get_bucket_size aws bucket_name bucket_region w) =
         Zsum (map Expected.worth answers)).
Proof.
  intros aws bucket_name bucket_region w total_size w' H.
  unfold get_bucket_size. rewrite H. cbn [fst].
  unfold get_bucket_size_try in H.
  destruct (acquire_client aws bucket_region w) as [[c|e] w1] eqn:Ha; [|done].
  apply SizeResolver.acquire_client_stored in Ha as (Hc & _).
  pose proof (SizeResolver.probe_world _ _ _ _ _ _ _ _ H) as (Hc' & _).
  exists c. split; [by rewrite Hc'|].
  apply probe_total in H. split; [exact H|].
  intros [Hw Hlt]. rewrite H, F64Facts.absorb_exact; [lia|apply F64Facts.whole_0|done|].
  change (Z.abs 0) with 0. lia.
Qed.

Lemma bucket_size_is_sum_witness :
  ∃ c, cloudwatch_clients
         (snd (get_bucket_size Scenario.three_buckets "beta" "eu-west-1" start))
         !! "eu-west-1"%string = Some c ∧
    fst (get_bucket_size Scenario.three_buckets "beta" "eu-west-1" start) =
      F64.of_Z 1500 ∧
    F64.of_Z 1500 =
      Zsum (map Expected.worth
              (map (λ t, get_metric_statistics Scenario.three_buckets c "beta" t)
                   storage_types)).
Proof.
  destruct (bucket_size_is_sum Scenario.three_buckets "beta"%string
              "eu-west-1"%string start (F64.of_Z 1500)
              (snd (get_bucket_size Scenario.three_buckets "beta" "eu-west-1" start))
              eq_refl) as (c & Hc & _ & Hsum).
  exists c. split; [exact Hc|]. split; [by vm_compute|].
  change (F64.of_Z 1500)
    with (fst (get_bucket_size Scenario.three_buckets "beta" "eu-west-1" start)).
  apply Hsum. clear Hsum.
  assert (c = {| client_id := 0; client_region := "eu-west-1" |}) as ->.
  { vm_compute in Hc. by injection Hc as <-. }
  split.
  - apply F64Facts.whole_check. vm_compute. reflexivity.
  - by vm_compute.
Defined.

Lemma head_by_time_max (datapoints : list Datapoint) (d : Datapoint) :
  head (by_time datapoints) = Some d →
  d ∈ datapoints ∧ ∀ d', d' ∈ datapoints → Timestamp d' ≤ Timestamp d.
Proof.
  intros (l1 & l2 & -> & H1 & H2)%newest_first_max. split.
  - apply elem_of_app. right. by left.
  - rewrite Forall_forall in H1, H2. intros d'.
    rewrite elem_of_app, elem_of_cons.
    intros [Hin|[->|Hin]]; [apply H1 in Hin|..|by apply H2]; lia.
Qed.

Lemma head_by_time_None (datapoints : list Datapoint) :
  head (by_time datapoints) = None → datapoints = [].
Proof.
  destruct datapoints as [|d l]; [done|]. by rewrite by_time_cons, head_insert.
Qed.

Lemma distinct_timestamps (l : list Datapoint) (x y : Datapoint) :
  NoDup (map Timestamp l) → x ∈ l → y ∈ l → Timestamp x = Timestamp y → x = y.
Proof.
  induction l as [|a l IH]; simpl; intros Hnd Hx Hy Heq.
  - by apply elem_of_nil in Hx.
  - apply NoDup_cons in Hnd as [Ha Hnd].
    apply elem_of_cons in Hx as [->|Hx], Hy as [->|Hy]; [done|..|by apply IH].
    + exfalso. apply Ha. rewrite Heq.
      apply (list_elem_of_fmap_2 Timestamp _ _ Hy).
    + exfalso. apply Ha. rewrite <- Heq.
      apply (list_elem_of_fmap_2 Timestamp _ _ Hx).
Qed.

Lemma head_by_time_perm (l l' : list Datapoint) :
  l ≡ₚ l' → NoDup (map Timestamp l) →
  head (by_time l) = head (by_time l').
Proof.
  intros Hp Hnd.
  destruct (head (by_time l)) as [d|] eqn:Hd, (head (by_time l')) as [d'|] eqn:Hd'.
  - apply head_by_time_max in Hd as [Hin Hmax], Hd' as [Hin' Hmax'].
    assert (Hd1 : d' ∈ l) by (by rewrite Hp).
    assert (Hd2 : d ∈ l') by (by rewrite <- Hp).
    f_equal. apply (distinct_timestamps l); [done|done|done|].
    apply Z.le_antisymm; auto.
  - apply head_by_time_None in Hd'. subst l'.
    apply Permutation_nil_r in Hp. subst l. discriminate Hd.
  - apply head_by_time_None in Hd. subst l.
    apply Permutation_nil_l in Hp. subst l'. discriminate Hd'.
  - done.
Qed.

(** X3: the order in which the service returns the datapoints of a class
    does not matter as long as their timestamps are pairwise different:
    two answers with the same datapoints have the same newest datapoint
    and move the running total in the same way. *)
Theorem datapoint_order_irrelevant :
  ∀ aws aws' c bucket_name storage_type l l',
    get_metric_statistics aws c bucket_name storage_type = Ok l →
    get_metric_statistics aws' c bucket_name storage_type = Ok l' →
    l ≡ₚ l' →
    NoDup (map Timestamp l) →
    ∃ amount : option Z,
      amount = Average <$> Expected.newest l ∧
      amount = Average <$> Expected.newest l' ∧
      ∀ rest total_size w,
        let total_size' :=
          match amount with
          | Some a => F64.add total_size a
          | None => total_size
          end in
        probe aws c bucket_name (storage_type :: rest) total_size w =
        probe aws c bucket_name rest total_size'
          (log_query {| q_client := c; q_bucket := bucket_name;
                        q_storage_type := storage_type |} w) ∧
        probe aws' c bucket_name (storage_type :: rest) total_size w =
        probe aws' c bucket_name rest total_size'
          (log_query {| q_client := c; q_bucket := bucket_name;
                        q_storage_type := storage_type |} w).
Proof.
  intros aws aws' c bucket_name storage_type l l' H H' Hp Hnd.
  assert (Hsame : Expected.newest l = Expected.newest l')
    by (by rewrite <- !head_sorted_newest, (head_by_time_perm l l' Hp Hnd)).
  exists (Average <$> Expected.newest l).
  split; [done|]. split; [by rewrite Hsame|].
  intros rest total_size w.
  rewrite (probe_data _ _ _ _ _ _ _ _ H), (probe_data _ _ _ _ _ _ _ _ H').
  unfold Expected.absorb. rewrite <- Hsame.
  by destruct (Expected.newest l).
Qed.

Lemma datapoint_order_irrelevant_witness :
  let c := {| client_id := 0; client_region := "us-east-1" |} in
  let shuffled :=
    Scenario.with_metrics (λ _ _ _,
      Ok [Scenario.at_time 3 500; Scenario.at_time 2 450; Scenario.at_time 1 400])
      Scenario.three_buckets in
  ∃ amount : option Z,
    amount = Some (F64.of_Z 500) ∧
    ∀ rest total_size w,
      let total_size' :=
        match amount with
        | Some a => F64.add total_size a
        | None => total_size
        end in
      probe Scenario.three_buckets c "alpha" ("StandardStorage"%string :: rest)
            total_size w =
      probe Scenario.three_buckets c "alpha" rest total_size'
        (log_query {| q_client := c; q_bucket := "alpha";
                      q_storage_type := "StandardStorage" |} w) ∧
      probe shuffled c "alpha" ("StandardStorage"%string :: rest) total_size w =
      probe shuffled c "alpha" rest total_size'
        (log_query {| q_client := c; q_bucket := "alpha";
                      q_storage_type := "StandardStorage" |} w).
Proof.
  intros c shuffled.
  destruct (datapoint_order_irrelevant Scenario.three_buckets shuffled c
           "alpha"%string "StandardStorage"%string
           [Scenario.at_time 1 400; Scenario.at_time 3 500; Scenario.at_time 2 450]
           [Scenario.at_time 3 500; Scenario.at_time 2 450; Scenario.at_time 1 400])
    as (amount & Hamount & _ & Hstep).
  - reflexivity.
  - reflexivity.
  - apply (Permutation_trans
             (l' := [Scenario.at_time 3 500; Scenario.at_time 1 400;
                     Scenario.at_time 2 450])).
    + apply perm_swap.
    + apply perm_skip, perm_swap.
  - apply (bool_decide_unpack _). vm_compute. exact I.
  - exists amount. split; [exact Hamount|exact Hstep].
Defined.

End Latest.

(** ** The run as a whole *)

Module Run.
Import S3Stat.

(** *** Queries *)

Lemma get_bucket_size_new_queries aws bucket_name bucket_region w :
  let w' := snd (get_bucket_size aws bucket_name bucket_region w) in
  ∃ n c,
    queries w' = queries w ++
      map (λ t, {| q_client := c; q_bucket := bucket_name; q_storage_type := t |})
          (take n storage_types) ∧
    (n = 0%nat ∨ ∃ w1, acquire_client aws bucket_region w = (Ok c, w1)).
Proof.
  unfold get_bucket_size, get_bucket_size_try.
  destruct (acquire_client aws bucket_region w) as [[c|e] w1] eqn:Ha.
  - pose proof (SizeResolver.acquire_client_stored _ _ _ _ _ Ha) as (_ & Hq & _).
    destruct (probe aws c bucket_name storage_types 0 w1) as [r w2] eqn:Hp.
    apply SizeResolver.probe_world in Hp as (_ & _ & _ & n & _ & Hq' & _).
    exists n, c. split; [|right; by exists w1].
    destruct r; simpl; by rewrite Hq', Hq.
  - apply SizeResolver.acquire_client_raise in Ha as ->.
    exists 0%nat, {| client_id := 0; client_region := bucket_region |}.
    split; [|by left]. simpl. by rewrite app_nil_r.
Qed.

Lemma acquired_region aws bucket_region w c w1 :
  cache_consistent w →
  acquire_client aws bucket_region w = (Ok c, w1) →
  client_region c = bucket_region.
Proof.
  intros (Hmap & _) Ha. unfold acquire_client in Ha.
  destruct (cloudwatch_clients w !! bucket_region) as [c0|] eqn:Hc.
  - injection Ha as <- <-. by apply Hmap in Hc as [_ ?].
  - destruct (boto3_client aws bucket_region); [|done]. by injection Ha as <- <-.
Qed.

(** X5: resolving one bucket issues at most 15 metric queries, for an
    initial stretch of the storage classes in list order; every one of
    them names this bucket and goes through a client of the bucket's
    region. *)
Theorem bucket_queries :
  ∀ aws bucket_name bucket_region w,
    cache_consistent w →
    ∃ new,
      queries (snd (get_bucket_size aws bucket_name bucket_region w)) =
        queries w ++ new ∧
      (length new ≤ 15)%nat ∧
      map q_storage_type new `prefix_of` storage_types ∧
      Forall (λ q, q_bucket q = bucket_name ∧
                   client_region (q_client q) = bucket_region) new.
Proof.
  intros aws bucket_name bucket_region w Hw.
  destruct (get_bucket_size_new_queries aws bucket_name bucket_region w)
    as (n & c & Hq & Hc).
  eexists. split; [exact Hq|]. split; [|split].
  - rewrite length_map, length_take. change (length storage_types) with 15%nat. lia.
  - rewrite map_map. simpl. rewrite map_id. apply prefix_take.
  - destruct Hc as [->|[w1 Hc]]; [constructor|].
    apply acquired_region in Hc; [|done].
    apply Forall_forall. intros q (t & -> & _)%list_elem_of_fmap. done.
Qed.

Lemma bucket_queries_witness :
  ∃ new,
    queries (snd (get_bucket_size Scenario.timeout "logs" "eu-west-1" start)) =
      queries start ++ new ∧
    (length new ≤ 15)%nat ∧
    map q_storage_type new `prefix_of` storage_types ∧
    Forall (λ q, q_bucket q = "logs"%string ∧
                 client_region (q_client q) = "eu-west-1"%string) new.
Proof.
  apply (bucket_queries Scenario.timeout "logs"%string "eu-west-1"%string start).
  apply ClientCache.cache_consistent_start.
Defined.

Lemma collect_query_count aws buckets :
  ∀ bucket_sizes total_size w,
    (length (queries (snd (collect aws buckets bucket_sizes total_size w))) ≤
     length (queries w) + 15 * length buckets)%nat.
Proof.
  induction buckets as [|bucket rest IH]; intros bucket_sizes total_size w;
    cbn [collect].
  - cbn [snd]. lia.
  - pose proof (RegionResolver.get_bucket_region_state aws (Name bucket) w)
      as (_ & _ & Hq).
    destruct (get_bucket_region aws (Name bucket) w) as [[bucket_region|e] w1];
      cbn [snd] in *; [|rewrite Hq; lia].
    destruct (get_bucket_size_new_queries aws (Name bucket) bucket_region w1)
      as (n & c & Hq' & _).
    destruct (get_bucket_size aws (Name bucket) bucket_region w1) as [size w2].
    cbn [snd] in Hq'.
    etransitivity; [apply IH|].
    rewrite Hq', length_app, length_map, length_take, Hq.
    change (length storage_types) with 15%nat. cbn [length]. lia.
Qed.

(** X6: a run issues at most 15 metric queries per bucket listed, and
    none when the listing fails. *)
Theorem query_budget :
  ∀ aws,
    (length (queries (snd (main aws))) ≤
     15 * match list_buckets aws with
          | Ok buckets => length buckets
          | Raise _ => 0
          end)%nat.
Proof.
  intros aws. unfold main.
  destruct (boto3_s3 aws) as [s3_client|e]; [|cbn; lia].
  destruct (list_buckets aws) as [[|b buckets]|e]; [cbn; lia| |cbn; lia].
  pose proof (collect_query_count aws (b :: buckets) [] 0 start) as H.
  destruct (collect aws (b :: buckets) [] 0 start) as [[[records total]|e] w];
    cbn [snd queries start length] in *; lia.
Qed.

(** *** Records *)

Lemma collect_records aws buckets :
  ∀ bucket_sizes total_size w records total w',
    collect aws buckets bucket_sizes total_size w = (Ok (records, total), w') →
    ∃ new, records = bucket_sizes ++ new ∧
      Forall2 (λ bucket x,
                 item.name x = Name bucket ∧
                 item.created x = CreationDate bucket ∧
                 fst (get_bucket_region aws (Name bucket) start)
                   = Ok (item.region x)) buckets new.
Proof.
  induction buckets as [|bucket rest IH];
    intros bucket_sizes total_size w records total w' H; cbn [collect] in H.
  - injection H as <- _ _. exists []. split; [by rewrite app_nil_r|constructor].
  - pose proof (RegionResolver.get_bucket_region_result aws (Name bucket) w start)
      as Hres.
    destruct (get_bucket_region aws (Name bucket) w) as [[bucket_region|e] w1];
      [|done].
    destruct (get_bucket_size aws (Name bucket) bucket_region w1) as [size w2].
    apply IH in H as (new & -> & Hnew).
    eexists (_ :: new). split; [by rewrite <- app_assoc|].
    constructor; [|done]. by rewrite <- Hres.
Qed.

(** X7: the report has exactly one record per bucket listed: in listing
    order the records carry the buckets' names and creation dates and the
    regions the resolver returns for them, and the details are these
    records sorted. *)
Theorem report_lists_every_bucket :
  ∀ aws report w,
    main aws = (Finished report, w) →
    ∃ buckets records,
      list_buckets aws = Ok buckets ∧
      Forall2 (λ bucket x,
                 item.name x = Name bucket ∧
                 item.created x = CreationDate bucket ∧
                 fst (get_bucket_region aws (Name bucket) start)
                   = Ok (item.region x)) buckets records ∧
      details report = sort_by_size records ∧
      bucket_total report = length buckets ∧
      length (details report) = length buckets.
Proof.
  intros aws report w. unfold main.
  destruct (boto3_s3 aws) as [s3_client|e]; [|done].
  destruct (list_buckets aws) as [[|b buckets]|e]; [done| |done].
  destruct (collect aws (b :: buckets) [] 0 start) as [[[records total]|e] w1] eqn:Hc;
    [|done].
  intros [= <- <-]. apply collect_records in Hc as (new & -> & Hnew).
  exists (b :: buckets), new. cbn [details bucket_total app].
  split; [done|]. split; [done|]. split; [done|]. split; [done|].
  rewrite (Permutation_length (Rollup.sort_by_size_perm new)).
  symmetry. by eapply Forall2_length.
Qed.

Lemma report_lists_every_bucket_witness :
  ∃ buckets records,
    list_buckets Scenario.three_buckets = Ok buckets ∧
    Forall2 (λ bucket x,
               item.name x = Name bucket ∧
               item.created x = CreationDate bucket ∧
               fst (get_bucket_region Scenario.three_buckets (Name bucket) start)
                 = Ok (item.region x)) buckets records ∧
    details Scenario.three_buckets_report = sort_by_size records ∧
    bucket_total Scenario.three_buckets_report = length buckets ∧
    length (details Scenario.three_buckets_report) = length buckets.
Proof.
  apply (report_lists_every_bucket Scenario.three_buckets
           Scenario.three_buckets_report (snd (main Scenario.three_buckets))).
  vm_compute. reflexivity.
Defined.

(** *** Outcomes *)

Lemma collect_ok aws buckets :
  (∀ bucket e, bucket ∈ buckets →
     get_bucket_location aws (Name bucket) = Raise e → is_ClientError e = true) →
  ∀ bucket_sizes total_size w,
    ∃ records total w',
      collect aws buckets bucket_sizes total_size w = (Ok (records, total), w').
Proof.
  induction buckets as [|bucket rest IH]; intros Hloc bucket_sizes total_size w;
    cbn [collect].
  - by eexists _, _, _.
  - assert (Hreg : ∃ r w1, get_bucket_region aws (Name bucket) w = (Ok r, w1)).
    { unfold get_bucket_region.
      destruct (get_bucket_location aws (Name bucket)) as [o|e] eqn:Hl.
      - by eexists _, _.
      - pose proof (Hloc bucket e ltac:(by left) Hl) as He.
        destruct e; [|done..]. by eexists _, _. }
    destruct Hreg as (r & w1 & ->).
    destruct (get_bucket_size aws (Name bucket) r w1) as [size w2].
    apply IH. intros b e Hb. apply Hloc. by right.
Qed.

(** X8: CloudWatch cannot abort a run.  When the S3 client is
    constructed, the listing returns at least one bucket and no region
    lookup raises anything but a [ClientError], [main] gets to its report
    with one record per bucket, whatever the construction of the
    CloudWatch clients and the metric queries do. *)
Theorem cloudwatch_never_aborts :
  ∀ aws buckets,
    boto3_s3 aws = Ok () →
    list_buckets aws = Ok buckets →
    buckets ≠ [] →
    (∀ bucket e, bucket ∈ buckets →
       get_bucket_location aws (Name bucket) = Raise e → is_ClientError e = true) →
    ∃ report,
      fst (main aws) = Finished report ∧
      length (details report) = length buckets.
Proof.
  intros aws buckets Hs3 Hl Hne Hloc. unfold main. rewrite Hs3, Hl.
  destruct buckets as [|b buckets]; [done|].
  destruct (collect_ok aws (b :: buckets) Hloc [] 0 start)
    as (records & total & w' & Hc).
  rewrite Hc. eexists. split; [done|]. cbn [details].
  apply collect_records in Hc as (new & -> & Hnew).
  rewrite (Permutation_length (Rollup.sort_by_size_perm _)).
  symmetry. by eapply Forall2_length.
Qed.

Lemma cloudwatch_never_aborts_witness :
  ∃ report,
    fst (main Outage.cloudwatch_down) = Finished report ∧
    length (details report) = 1%nat.
Proof.
  apply (cloudwatch_never_aborts Outage.cloudwatch_down
           [ {| Name := "logs"; CreationDate := 5 |} ]); [done|done|done|].
  intros bucket e _ H. discriminate H.
Defined.

Lemma collect_raise aws buckets :
  ∀ bucket_sizes total_size w e w',
    collect aws buckets bucket_sizes total_size w = (Raise e, w') →
    ∃ bucket, bucket ∈ buckets ∧
      get_bucket_location aws (Name bucket) = Raise e ∧ is_ClientError e = false.
Proof.
  induction buckets as [|bucket rest IH];
    intros bucket_sizes total_size w e w' H; cbn [collect] in H; [done|].
  destruct (get_bucket_region aws (Name bucket) w) as [[r|e0] w1] eqn:Hr.
  - destruct (get_bucket_size aws (Name bucket) r w1) as [size w2].
    apply IH in H as (b & Hb & Hloc). exists b. split; [by right|done].
  - injection H as -> _. exists bucket. split; [by left|].
    unfold get_bucket_region in Hr.
    destruct (get_bucket_location aws (Name bucket)) as [o|e1]; [done|].
    destruct e1; [done|..]; by injection Hr as <- _.
Qed.

(** X9: how a run can end without a report.  It reports no buckets
    exactly when the S3 client is constructed and the listing is empty;
    it is aborted by an exception only when the construction of the S3
    client raised it, or the listing raised it, or the region lookup of
    one of the listed buckets raised it and it is not a [ClientError]. *)
Theorem run_outcome :
  ∀ aws,
    (fst (main aws) = NoBuckets ↔
       boto3_s3 aws = Ok () ∧ list_buckets aws = Ok []) ∧
    (∀ e, fst (main aws) = Aborted e →
       boto3_s3 aws = Raise e ∨
       boto3_s3 aws = Ok () ∧
       (list_buckets aws = Raise e ∨
        ∃ buckets bucket,
          list_buckets aws = Ok buckets ∧ bucket ∈ buckets ∧
          get_bucket_location aws (Name bucket) = Raise e ∧
          is_ClientError e = false)).
Proof.
  intros aws. unfold main.
  destruct (boto3_s3 aws) as [[]|e0].
  2:{ split; [split; [intros H|intros [H _]]; discriminate H|].
      intros e [= <-]. by left. }
  destruct (list_buckets aws) as [[|b buckets]|e0].
  - split; [done|]. intros e H. discriminate H.
  - destruct (collect aws (b :: buckets) [] 0 start)
      as [[[records total]|e1] w1] eqn:Hc.
    + split; [split; [intros H|intros [_ H]]; discriminate H|].
      intros e H. discriminate H.
    + split; [split; [intros H|intros [_ H]]; discriminate H|].
      intros e [= <-].
      apply collect_raise in Hc as (bucket & Hb & Hloc & He).
      right. split; [done|]. right. by exists (b :: buckets), bucket.
  - split; [split; [intros H|intros [_ H]]; discriminate H|].
    intros e [= <-]. right. split; [done|]. by left.
Qed.

Lemma run_outcome_witness :
  fst (main Outage.no_s3) = Aborted NoCredentialsError ∧
  (boto3_s3 Outage.no_s3 = Raise NoCredentialsError ∨
   boto3_s3 Outage.no_s3 = Ok () ∧
   (list_buckets Outage.no_s3 = Raise NoCredentialsError ∨
    ∃ buckets bucket,
      list_buckets Outage.no_s3 = Ok buckets ∧ bucket ∈ buckets ∧
      get_bucket_location Outage.no_s3 (Name bucket)
        = Raise NoCredentialsError ∧
      is_ClientError NoCredentialsError = false)).
Proof.
  assert (H : fst (main Outage.no_s3) = Aborted NoCredentialsError)
    by reflexivity.
  split; [exact H|].
  exact (proj2 (run_outcome Outage.no_s3) NoCredentialsError H).
Defined.

(** *** Signs *)

Lemma Zsum_nonneg (l : list Z) : Forall (λ z, 0 ≤ z) l → 0 ≤ Zsum l.
Proof. induction 1; simpl; lia. Qed.

Lemma absorb_nonneg (total_size : Z) (response : result (list Datapoint)) :
  0 ≤ total_size →
  (∀ datapoints d, response = Ok datapoints → d ∈ datapoints → 0 ≤ Average d) →
  0 ≤ Expected.absorb total_size response.
Proof.
  intros Ht H. destruct response as [datapoints|e]; [|done].
  unfold Expected.absorb. rewrite <- Latest.head_sorted_newest.
  destruct (head _) as [d|] eqn:Hd; [|done].
  apply Latest.head_by_time_max in Hd as [Hin _].
  apply F64Facts.add_nonneg; [done|]. by eapply H.
Qed.

Lemma absorb_all_nonneg (answers : list (result (list Datapoint))) :
  ∀ total_size,
    0 ≤ total_size →
    Forall (λ response, ∀ datapoints d,
              response = Ok datapoints → d ∈ datapoints → 0 ≤ Average d)
           answers →
    0 ≤ fold_left Expected.absorb answers total_size.
Proof.
  induction answers as [|r l IH]; intros total_size Ht Hl; [done|].
  apply Forall_cons in Hl as [Hr Hl]. cbn [fold_left].
  apply IH; [|done]. by apply absorb_nonneg.
Qed.

Lemma get_bucket_size_nonneg aws bucket_name bucket_region w :
  (∀ c storage_type datapoints d,
     get_metric_statistics aws c bucket_name storage_type = Ok datapoints →
     d ∈ datapoints → 0 ≤ Average d) →
  0 ≤ fst (get_bucket_size aws bucket_name bucket_region w).
Proof.
  intros Hpos. unfold get_bucket_size, get_bucket_size_try.
  destruct (acquire_client aws bucket_region w) as [[c|e] w1]; [|done].
  destruct (probe aws c bucket_name storage_types 0 w1) as [[v|e] w2] eqn:Hp;
    [|done].
  apply Latest.probe_total in Hp. cbn [fst]. rewrite Hp.
  apply absorb_all_nonneg; [done|].
  apply Forall_forall. intros r (t & -> & _)%list_elem_of_fmap.
  intros datapoints d. apply Hpos.
Qed.

Lemma collect_nonneg aws buckets :
  (∀ c bucket_name storage_type datapoints d,
     get_metric_statistics aws c bucket_name storage_type = Ok datapoints →
     d ∈ datapoints → 0 ≤ Average d) →
  ∀ bucket_sizes total_size w records total w',
    collect aws buckets bucket_sizes total_size w = (Ok (records, total), w') →
    Forall (λ x, 0 ≤ item.size x) bucket_sizes → 0 ≤ total_size →
    Forall (λ x, 0 ≤ item.size x) records ∧ 0 ≤ total.
Proof.
  intros Hpos. induction buckets as [|bucket rest IH];
    intros bucket_sizes total_size w records total w' H Hacc Htot;
    cbn [collect] in H.
  - by injection H as <- <- _.
  - destruct (get_bucket_region aws (Name bucket) w) as [[r|e] w1]; [|done].
    pose proof (get_bucket_size_nonneg aws (Name bucket) r w1
                  (λ c, Hpos c (Name bucket))) as Hsize.
    destruct (get_bucket_size aws (Name bucket) r w1) as [size w2].
    cbn [fst] in Hsize. eapply IH; [exact H| |by apply F64Facts.add_nonneg].
    apply Forall_app. split; [done|]. by repeat constructor.
Qed.

(** X4: when no datapoint the service returns has a negative Average,
    nothing in the report is negative: no record's size, no region's
    total, and not the grand total. *)
Theorem sizes_nonnegative :
  ∀ aws,
    (∀ c bucket_name storage_type datapoints d,
       get_metric_statistics aws c bucket_name storage_type = Ok datapoints →
       d ∈ datapoints → 0 ≤ Average d) →
    ∀ report w,
      main aws = (Finished report, w) →
      Forall (λ x, 0 ≤ item.size x) (details report) ∧
      Forall (λ row, 0 ≤ stats.size row.2) (by_region report) ∧
      0 ≤ grand_total report.
Proof.
  intros aws Hpos report w. unfold main.
  destruct (boto3_s3 aws) as [s3_client|e]; [|done].
  destruct (list_buckets aws) as [[|b buckets]|e]; [done| |done].
  destruct (collect aws (b :: buckets) [] 0 start) as [[[records total]|e] w1] eqn:Hc;
    [|done].
  intros [= <- <-]. cbn [details by_region grand_total].
  apply (collect_nonneg aws _ Hpos) in Hc as [Hrec Htot]; [|constructor|done].
  assert (Hsorted : Forall (λ x, 0 ≤ item.size x) (sort_by_size records))
    by (by rewrite Rollup.sort_by_size_perm).
  split; [done|]. split; [|done].
  apply Forall_forall. intros [r st] Hrow%Rollup.region_rows_elem.
  rewrite Rollup.region_stats_lookup in Hrow.
  destruct (in_region r (sort_by_size records)) as [|x l] eqn:Hr; [done|].
  rewrite <- Hr in Hrow. injection Hrow as <-. cbn [snd stats.size].
  apply F64Facts.sum_from_nonneg; [done|].
  apply Forall_forall. intros z (y & -> & Hy)%list_elem_of_fmap.
  apply list_elem_of_filter in Hy as [_ Hy].
  rewrite Forall_forall in Hsorted. by apply Hsorted.
Qed.

Lemma sizes_nonnegative_witness :
  Forall (λ x, 0 ≤ item.size x) (details Scenario.three_buckets_report) ∧
  Forall (λ row, 0 ≤ stats.size row.2) (by_region Scenario.three_buckets_report) ∧
  0 ≤ grand_total Scenario.three_buckets_report.
Proof.
  apply (sizes_nonnegative Scenario.three_buckets) with
    (w := snd (main Scenario.three_buckets)).
  - intros c bucket_name storage_type datapoints d H Hd.
    assert (Hall : Forall (λ d, 0 ≤ Average d) datapoints).
    { revert H. cbn.
      repeat match goal with
             | |- context [String.eqb ?a ?b] => destruct (String.eqb a b)
             end; intros [= <-];
        repeat (apply Forall_cons; split; [apply F64Facts.of_Z_nonneg; lia|]);
        by apply Forall_nil. }
    rewrite Forall_forall in Hall. by apply Hall.
  - vm_compute. reflexivity.
Defined.

(** *** Clients *)

Lemma region_rows_length (m : gmap string stats.t) :
  length (region_rows m) = size m.
Proof.
  rewrite <- (length_fmap fst), Rollup.region_rows_regions.
  rewrite (Permutation_length (Rollup.sorted_regions_perm m)).
  by rewrite length_fmap, length_map_to_list.
Qed.

Lemma region_rows_regions_present (l : list item.t) (r : string) :
  r ∈ (region_rows (region_stats_loop l ∅)).*1 ↔
  ∃ x, x ∈ l ∧ item.region x = r.
Proof.
  rewrite Rollup.region_rows_regions, Rollup.sorted_regions_elem.
  rewrite Rollup.region_stats_lookup, <- Rollup.in_region_nonempty.
  destruct (in_region r l); split; done.
Qed.

Lemma short_when_within {A} (l k : list A) :
  NoDup l → (∀ x, x ∈ l → x ∈ k) → (length l ≤ length k)%nat.
Proof. intros Hnd Hsub. by apply submseteq_length, NoDup_submseteq. Qed.

Lemma cache_step_keeps bucket_region w w' r c :
  cache_step bucket_region w w' →
  cloudwatch_clients w !! r = Some c →
  cloudwatch_clients w' !! r = Some c.
Proof.
  intros [H1 _|c0 H0 _ H1 _] Hr; rewrite H1; [done|].
  rewrite lookup_insert_ne; [done|]. intros ->. congruence.
Qed.

Lemma get_bucket_size_caches aws bucket_name bucket_region w :
  (∀ e, boto3_client aws bucket_region ≠ Raise e) →
  is_Some (cloudwatch_clients (snd (get_bucket_size aws bucket_name bucket_region w))
             !! bucket_region).
Proof.
  intros Hctor. unfold get_bucket_size, get_bucket_size_try.
  destruct (acquire_client aws bucket_region w) as [[c|e] w1] eqn:Ha.
  - apply SizeResolver.acquire_client_stored in Ha as (Hc & _).
    destruct (probe aws c bucket_name storage_types 0 w1) as [r w2] eqn:Hp.
    apply SizeResolver.probe_world in Hp as (Hc' & _).
    exists c. destruct r; cbn; by rewrite Hc'.
  - exfalso. unfold acquire_client in Ha.
    destruct (cloudwatch_clients w !! bucket_region); [done|].
    destruct (boto3_client aws bucket_region) eqn:Hb; [done|]. by eapply Hctor.
Qed.

Lemma collect_cached aws buckets :
  (∀ r e, boto3_client aws r ≠ Raise e) →
  ∀ bucket_sizes total_size w records total w',
    collect aws buckets bucket_sizes total_size w = (Ok (records, total), w') →
    (∀ x, x ∈ bucket_sizes → is_Some (cloudwatch_clients w !! item.region x)) →
    ∀ x, x ∈ records → is_Some (cloudwatch_clients w' !! item.region x).
Proof.
  intros Hctor. induction buckets as [|bucket rest IH];
    intros bucket_sizes total_size w records total w' H Hacc; cbn [collect] in H.
  - by injection H as <- _ <-.
  - pose proof (RegionResolver.get_bucket_region_state aws (Name bucket) w)
      as (Hc & _).
    destruct (get_bucket_region aws (Name bucket) w) as [[r|e] w1]; [|done].
    cbn [snd] in Hc.
    pose proof (ClientCache.get_bucket_size_step aws (Name bucket) r w1)
      as [Hstep _].
    pose proof (get_bucket_size_caches aws (Name bucket) r w1 (Hctor r)) as Hnew.
    destruct (get_bucket_size aws (Name bucket) r w1) as [size w2].
    cbn [snd] in Hstep, Hnew.
    eapply IH; [exact H|]. intros x [Hx|Hx]%elem_of_app.
    + destruct (Hacc x Hx) as [c Hsome]. exists c.
      eapply cache_step_keeps; [exact Hstep|]. by rewrite Hc.
    + apply list_elem_of_singleton in Hx as ->. exact Hnew.
Qed.

(** X10: a finished run has constructed at most one CloudWatch client
    per region appearing in its report, so no more clients than region
    rows and no more region rows than buckets; the region count shown is
    the number of region rows.  When no client construction fails, the
    clients constructed are exactly as many as the regions reported. *)
Theorem clients_bounded :
  ∀ aws report w,
    main aws = (Finished report, w) →
    (length (constructed w) ≤ region_total report)%nat ∧
    (region_total report ≤ bucket_total report)%nat ∧
    region_total report = length (by_region report) ∧
    ((∀ r e, boto3_client aws r ≠ Raise e) →
     length (constructed w) = region_total report).
Proof.
  intros aws report w. unfold main.
  destruct (boto3_s3 aws) as [s3_client|e]; [|done].
  destruct (list_buckets aws) as [[|b buckets]|e]; [done| |done].
  pose proof (ClientCache.collect_consistent aws (b :: buckets) [] 0 start
                ClientCache.cache_consistent_start) as [Hcons Hreg].
  destruct (collect aws (b :: buckets) [] 0 start) as [[[records total]|e] w1] eqn:Hc;
    [|done].
  cbn [snd] in Hcons, Hreg. intros [= <- <-].
  cbn [region_total bucket_total by_region].
  set (m := region_stats_loop (sort_by_size records) ∅).
  pose proof (collect_records _ _ _ _ _ _ _ _ Hc) as (new & Hrecords & Hnew).
  cbn [app] in Hrecords. subst new.
  destruct Hcons as (Hmap & Hnd & _ & _).
  assert (Hrows : ∀ r, r ∈ (region_rows m).*1 ↔ ∃ x, x ∈ records ∧ item.region x = r).
  { intros r. unfold m. rewrite region_rows_regions_present.
    by setoid_rewrite (Rollup.sort_by_size_perm records). }
  assert (Hle : (length (constructed w1) ≤ size m)%nat).
  { rewrite <- region_rows_length, <- (length_fmap fst (region_rows m)).
    rewrite <- (length_fmap client_region (constructed w1)).
    apply short_when_within; [exact Hnd|].
    intros r (c & -> & Hin)%list_elem_of_fmap. apply Hrows.
    destruct (Hreg c Hin) as [Hnil|(bucket & Hb & Hres)];
      [by apply elem_of_nil in Hnil|].
    apply list_elem_of_lookup in Hb as [i Hi].
    destruct (Forall2_lookup_l _ _ _ _ _ Hnew Hi) as (x & Hx & _ & _ & Hxr).
    exists x. split; [by eapply list_elem_of_lookup_2|]. congruence. }
  split; [exact Hle|]. split; [|split].
  - rewrite <- region_rows_length, <- (length_fmap fst (region_rows m)).
    change (S (length buckets)) with (length (b :: buckets)).
    rewrite (Forall2_length _ _ _ Hnew).
    rewrite <- (length_fmap item.region records).
    apply short_when_within.
    + rewrite Rollup.region_rows_regions. apply Rollup.sorted_regions_NoDup.
    + intros r (x & Hx & <-)%Hrows. by apply list_elem_of_fmap_2.
  - by rewrite region_rows_length.
  - intros Hctor. apply Nat.le_antisymm; [exact Hle|].
    rewrite <- region_rows_length, <- (length_fmap fst (region_rows m)).
    rewrite <- (length_fmap client_region (constructed w1)).
    apply short_when_within.
    + rewrite Rollup.region_rows_regions. apply Rollup.sorted_regions_NoDup.
    + intros r (x & Hx & <-)%Hrows.
      destruct (collect_cached aws _ Hctor _ _ _ _ _ _ Hc
                  ltac:(by intros ? ?%elem_of_nil) x Hx) as [c Hcached].
      apply Hmap in Hcached as [Hin <-]. by apply list_elem_of_fmap_2.
Qed.

Lemma clients_bounded_witness :
  let w := snd (main Scenario.three_buckets) in
  (length (constructed w) ≤ region_total Scenario.three_buckets_report)%nat ∧
  (region_total Scenario.three_buckets_report
     ≤ bucket_total Scenario.three_buckets_report)%nat ∧
  region_total Scenario.three_buckets_report
    = length (by_region Scenario.three_buckets_report) ∧
  ((∀ r e, boto3_client Scenario.three_buckets r ≠ Raise e) →
   length (constructed w) = region_total Scenario.three_buckets_report).
Proof.
  intros w.
  apply (clients_bounded Scenario.three_buckets Scenario.three_buckets_report w).
  vm_compute. reflexivity.
Defined.

(** X17: nothing is ever evicted from the client cache or replaced in
    it: a client cached for a region before any stretch of the loop is
    still the one cached for that region after it, however the stretch
    ends. *)
Theorem cache_never_evicts :
  ∀ aws buckets bucket_sizes total_size w r c,
    cloudwatch_clients w !! r = Some c →
    cloudwatch_clients (snd (collect aws buckets bucket_sizes total_size w)) !! r
      = Some c.
Proof.
  intros aws buckets. induction buckets as [|bucket rest IH];
    intros bucket_sizes total_size w r c Hr; cbn [collect]; [done|].
  pose proof (RegionResolver.get_bucket_region_state aws (Name bucket) w)
    as (Hc & _).
  destruct (get_bucket_region aws (Name bucket) w) as [[region|e] w1];
    cbn [snd] in *; [|by rewrite Hc].
  pose proof (ClientCache.get_bucket_size_step aws (Name bucket) region w1)
    as [Hstep _].
  destruct (get_bucket_size aws (Name bucket) region w1) as [size w2].
  cbn [snd] in Hstep. apply IH.
  eapply cache_step_keeps; [exact Hstep|]. by rewrite Hc.
Qed.

Lemma cache_never_evicts_witness :
  let w := snd (get_bucket_size Scenario.three_buckets "alpha" "us-east-1" start) in
  cloudwatch_clients
    (snd (collect Scenario.three_buckets
            [ {| Name := "beta"; CreationDate := 20 |};
              {| Name := "gamma"; CreationDate := 30 |} ] [] 0 w))
    !! "us-east-1"%string
  = Some {| client_id := 0; client_region := "us-east-1" |}.
Proof.
  intros w.
  apply (cache_never_evicts Scenario.three_buckets). reflexivity.
Defined.

End Run.

(** ** More on the per-region summary *)

Module Regions.
Import S3Stat.

Lemma in_region_perm (r : string) (l l' : list item.t) :
  l ≡ₚ l' → in_region r l ≡ₚ in_region r l'.
Proof. intros Hp. unfold in_region. by rewrite Hp. Qed.

Lemma region_stats_perm (l l' : list item.t) :
  l ≡ₚ l' → Expected.adds_exactly (map item.size l) →
  region_stats_loop l ∅ = region_stats_loop l' ∅.
Proof.
  intros Hp Hexact. apply map_eq. intros r. rewrite !Rollup.region_stats_lookup.
  pose proof (in_region_perm r l l' Hp) as Hr.
  assert (Hexact' : Expected.adds_exactly (map item.size l'))
    by (eapply F64Facts.adds_exactly_perm; [|exact Hexact];
        by apply Permutation_map).
  pose proof (F64Facts.float_sum_exact _
                (F64Facts.adds_exactly_filter item.size
                   (λ x, item.region x = r) l Hexact)) as Hs.
  pose proof (F64Facts.float_sum_exact _
                (F64Facts.adds_exactly_filter item.size
                   (λ x, item.region x = r) l' Hexact')) as Hs'.
  fold (in_region r l) in Hs. fold (in_region r l') in Hs'.
  destruct (in_region r l) as [|x k] eqn:Hk, (in_region r l') as [|x' k'] eqn:Hk'.
  - done.
  - by apply Permutation_nil_cons in Hr.
  - symmetry in Hr. by apply Permutation_nil_cons in Hr.
  - cbv zeta. f_equal. f_equal.
    + by rewrite (Permutation_length Hr).
    + rewrite Hs, Hs'. apply Rollup.Zsum_perm. by apply Permutation_map.
Qed.

(** X11: as long as the sizes are whole numbers of bytes whose absolute
    values add up to less than 2^53, the per-region summary depends on
    which records there are, not on their order: two lists with the same
    records give the same dict and the same rows.  In particular,
    computing it after the sort (as [main] does) or before gives the same
    summary.  Beyond that magnitude the order shows: records of 2^53, 1
    and 1 bytes total 2^53 in this order and 2^53 + 2 in the reverse
    order. *)
Theorem rollup_order_independent :
  (∀ l l' : list item.t,
     l ≡ₚ l' →
     Expected.adds_exactly (map item.size l) →
     region_stats_loop l ∅ = region_stats_loop l' ∅ ∧
     region_rows (region_stats_loop l ∅) = region_rows (region_stats_loop l' ∅)) ∧
  region_rows (region_stats_loop Petabytes.records ∅) =
    [ ("us-east-1"%string,
       {| stats.count := 3; stats.size := F64.of_Z (2 ^ 53) |}) ] ∧
  region_rows (region_stats_loop (reverse Petabytes.records) ∅) =
    [ ("us-east-1"%string,
       {| stats.count := 3; stats.size := F64.of_Z (2 ^ 53 + 2) |}) ].
Proof.
  split; [|split; by vm_compute].
  intros l l' Hp Hexact. rewrite (region_stats_perm l l' Hp Hexact). done.
Qed.

Lemma rollup_order_independent_witness :
  let records := details Scenario.three_buckets_report in
  region_stats_loop (reverse records) ∅ = region_stats_loop records ∅ ∧
  region_rows (region_stats_loop (reverse records) ∅) =
  region_rows (region_stats_loop records ∅).
Proof.
  intros records.
  apply (proj1 rollup_order_independent (reverse records) records).
  - apply reverse_Permutation.
  - split.
    + apply F64Facts.whole_check. vm_compute. reflexivity.
    + by vm_compute.
Defined.

Lemma Zsum_by_region_weight (f : item.t → Z) (regions : list string)
    (l : list item.t) :
  NoDup regions →
  (∀ x, x ∈ l → item.region x ∈ regions) →
  Zsum (map (λ r, Zsum (map f (in_region r l))) regions) = Zsum (map f l).
Proof.
  intros Hnd. unfold in_region.
  induction l as [|x rest IH]; intros Hcover; simpl.
  - apply Rollup.Zsum_zero.
  - assert (Hx : item.region x ∈ regions) by (apply Hcover; by left).
    rewrite <- IH by (intros y Hy; apply Hcover; by right).
    transitivity
      (Zsum (map (λ r, (if decide (item.region x = r) then f x else 0) +
                       Zsum (map f (filter (λ y, item.region y = r) rest)))
                 regions)).
    + f_equal. apply map_ext. intros r. rewrite filter_cons.
      destruct (decide (item.region x = r)); simpl; lia.
    + rewrite Rollup.Zsum_pointwise, (Rollup.Zsum_single _ _ _ Hnd),
        decide_True by done.
      done.
Qed.

Lemma Zsum_ones {A} (l : list A) : Zsum (map (λ _, 1) l) = Z.of_nat (length l).
Proof. induction l; simpl; lia. Qed.

(** X12: every record is counted in exactly one row: the bucket counts
    of the rows add up to the number of records, no row has a count below
    1, and there are as many rows as the dict has regions. *)
Theorem region_counts :
  ∀ l : list item.t,
    let rows := region_rows (region_stats_loop l ∅) in
    Zsum (map (λ row, stats.count row.2) rows) = Z.of_nat (length l) ∧
    Forall (λ row, 1 ≤ stats.count row.2) rows ∧
    length rows = size (region_stats_loop l ∅).
Proof.
  intros l rows. subst rows. set (m := region_stats_loop l ∅).
  split; [|split].
  - rewrite <- Zsum_ones, <- (Zsum_by_region_weight _ (sorted_regions m)).
    + unfold region_rows.
      change (map ?f (?g <$> ?k)) with (map f (map g k)). rewrite map_map.
      f_equal. apply map_ext. intros r. cbn [snd].
      unfold lookup_total, map_lookup_total. subst m.
      rewrite Rollup.region_stats_lookup, Zsum_ones.
      by destruct (in_region r l).
    + apply Rollup.sorted_regions_NoDup.
    + intros x Hx. apply Rollup.sorted_regions_elem. subst m.
      rewrite Rollup.region_stats_lookup.
      destruct (in_region (item.region x) l) eqn:Hr; [|by eexists].
      exfalso. revert Hr. apply Rollup.in_region_nonempty. by exists x.
  - apply Forall_forall. intros [r st] Hrow%Rollup.region_rows_elem.
    subst m. rewrite Rollup.region_stats_lookup in Hrow.
    destruct (in_region r l) as [|x k]; [done|].
    injection Hrow as <-. cbn [snd stats.count length]. lia.
  - apply Run.region_rows_length.
Qed.

End Regions.

(** ** More on the size formatter *)

Module Magnitude.
Import S3Stat.
Local Open Scope Q_scope.

(** The loop stops at unit [k] when the value has stayed at or above
    1024 through [k] divisions and is below 1024 then. *)
Lemma format_size_from_at (k : nat) :
  ∀ (labels : list string) (x : Q),
    (k < length labels)%nat →
    (∀ j, (j < k)%nat → 1024 <= divided j x) →
    divided k x < 1024 →
    format_size_from labels x =
      fmt_2f (divided k x) +:+ " " +:+ nth k labels "EB"%string.
Proof.
  induction k as [|k IH]; intros [|unit rest] x Hk Hge Hlt;
    cbn [length] in Hk; try lia.
  - cbn [format_size_from nth]. change (divided 0 x) with x in *.
    apply Formatter.Qltb_lt in Hlt. by rewrite Hlt.
  - cbn [format_size_from nth].
    assert (H0 : Qltb x 1024 = false) by (apply Formatter.Qltb_ge, (Hge 0%nat); lia).
    rewrite H0, Formatter.divided_succ. apply IH.
    + lia.
    + intros j Hj. rewrite <- Formatter.divided_succ. apply Hge. lia.
    + by rewrite <- Formatter.divided_succ.
Qed.

Lemma format_size_from_end (labels : list string) :
  ∀ x : Q,
    (∀ j, (j < length labels)%nat → 1024 <= divided j x) →
    format_size_from labels x = fmt_2f (divided (length labels) x) +:+ " EB".
Proof.
  induction labels as [|unit rest IH]; intros x Hge; [done|].
  cbn [format_size_from length].
  assert (H0 : Qltb x 1024 = false)
    by (apply Formatter.Qltb_ge, (Hge 0%nat); cbn; lia).
  rewrite H0, Formatter.divided_succ. apply IH.
  intros j Hj. rewrite <- Formatter.divided_succ. apply Hge. cbn. lia.
Qed.

Lemma power_pos (k : Z) : 0 < 1024 ^ k.
Proof. by apply Qpower_0_lt. Qed.

Lemma power_succ (k : nat) : 1024 ^ (Z.of_nat k + 1) == 1024 * 1024 ^ Z.of_nat k.
Proof. rewrite Qpower_plus by discriminate. simpl. ring. Qed.

Lemma divided_ge (j : nat) (x : Q) :
  1024 ^ (Z.of_nat j + 1) <= x → 1024 <= divided j x.
Proof.
  intros H. rewrite Formatter.divided_power.
  apply Qle_shift_div_l; [apply power_pos|]. by rewrite <- power_succ.
Qed.

Lemma divided_lt (k : nat) (x : Q) :
  x < 1024 ^ (Z.of_nat k + 1) → divided k x < 1024.
Proof.
  intros H. rewrite Formatter.divided_power.
  apply Qlt_shift_div_r; [apply power_pos|]. by rewrite <- power_succ.
Qed.

Lemma divided_ge_below (j k : nat) (x : Q) :
  (j < k)%nat → 1024 ^ Z.of_nat k <= x → 1024 <= divided j x.
Proof.
  intros Hj Hx. apply divided_ge.
  apply Qle_trans with (1024 ^ Z.of_nat k); [|exact Hx].
  apply Qpower_le_compat_l; [lia|discriminate].
Qed.

Lemma format_size_at (k : nat) (x : Q) :
  (k ≤ 5)%nat →
  (k = 0%nat ∨ 1024 ^ Z.of_nat k <= x) →
  x < 1024 ^ (Z.of_nat k + 1) →
  format_size x =
    fmt_2f (x / 1024 ^ Z.of_nat k) +:+ " " +:+ nth k units "EB"%string.
Proof.
  intros Hk Hlo Hhi. unfold format_size.
  rewrite (format_size_from_at k).
  - by rewrite (Formatter.fmt_2f_compat _ _ (Formatter.divided_power k x)).
  - cbn. lia.
  - intros j Hj. destruct Hlo as [->|Hlo]; [lia|]. by eapply divided_ge_below.
  - by apply divided_lt.
Qed.

(** X13: the unit is decided by the magnitude.  Below 1024 the value is
    shown in B; from 1024^k up to but excluding 1024^(k+1), for k from 1
    to 5, it is divided by 1024^k and shown in KB, MB, GB, TB, PB; from
    1024^6 on it is divided by 1024^6 and shown in EB, however large. *)
Theorem unit_by_magnitude :
  (∀ x : Q, x < 1024 → format_size x = fmt_2f x +:+ " B") ∧
  (∀ (k : nat) (x : Q),
     (1 ≤ k ≤ 5)%nat →
     1024 ^ Z.of_nat k <= x → x < 1024 ^ (Z.of_nat k + 1) →
     format_size x =
       fmt_2f (x / 1024 ^ Z.of_nat k) +:+ " " +:+
       nth k ["B"; "KB"; "MB"; "GB"; "TB"; "PB"]%string "EB"%string) ∧
  (∀ x : Q, 1024 ^ 6 <= x → format_size x = fmt_2f (x / 1024 ^ 6) +:+ " EB").
Proof.
  split; [|split].
  - intros x Hx. unfold format_size. cbn [units format_size_from].
    apply Formatter.Qltb_lt in Hx. by rewrite Hx.
  - intros k x [_ Hk] Hlo Hhi. apply (format_size_at k x); [done|by right|done].
  - intros x Hx. unfold format_size. rewrite format_size_from_end.
    + change (length units) with 6%nat.
      by rewrite (Formatter.fmt_2f_compat _ _ (Formatter.divided_power 6 x)).
    + intros j Hj. by apply (divided_ge_below j 6).
Qed.

Lemma unit_by_magnitude_witness :
  format_size (5 # 2) = fmt_2f (5 # 2) +:+ " B" ∧
  format_size 3000000 = fmt_2f (3000000 / 1024 ^ 2) +:+ " MB" ∧
  format_size (inject_Z (2000 * 1024 ^ 6)) =
    fmt_2f (inject_Z (2000 * 1024 ^ 6) / 1024 ^ 6) +:+ " EB".
Proof.
  destruct unit_by_magnitude as (Hb & Hk & He).
  split; [|split].
  - apply Hb. reflexivity.
  - apply (Hk 2%nat 3000000); [lia|discriminate|reflexivity].
  - apply He. discriminate.
Defined.

(** *** Rounding at the top of a unit *)

Lemma round_half_even_between (z : Q) (n : Z) :
  inject_Z n + (1 # 2) <= z → z < inject_Z n + 1 → Z.odd n = true →
  round_half_even z = (n + 1)%Z.
Proof.
  intros Hlo Hhi Hodd.
  assert (Hf : Qfloor z = n).
  { pose proof (Qfloor_le z) as H1. pose proof (Qlt_floor z) as H2.
    rewrite inject_Z_plus in H2. change (inject_Z 1) with 1 in H2.
    assert (inject_Z (Qfloor z) < inject_Z (n + 1)) as H3
      by (rewrite inject_Z_plus; change (inject_Z 1) with 1; lra).
    assert (inject_Z n < inject_Z (Qfloor z + 1)) as H4
      by (rewrite inject_Z_plus; change (inject_Z 1) with 1; lra).
    rewrite <- Zlt_Qlt in H3, H4. lia. }
  unfold round_half_even. rewrite Hf.
  destruct (Qcompare_spec (z - inject_Z n) (1 # 2)) as [He|Hl|Hg].
  - rewrite <- Z.negb_odd, Hodd. done.
  - lra.
  - done.
Qed.

Lemma fmt_2f_below_1024 (y : Q) :
  (1023995 # 1000) <= y → y < 1024 → fmt_2f y = "1024.00"%string.
Proof.
  intros Hlo Hhi.
  assert (Hs : Qltb y 0 = false) by (apply Formatter.Qltb_ge; lra).
  assert (Ha : Qabs y * 100 == y * 100) by (rewrite Qabs_pos; [reflexivity|lra]).
  assert (Hh : round_half_even (Qabs y * 100) = 102400%Z).
  { rewrite (Formatter.round_half_even_compat _ _ Ha).
    apply (round_half_even_between _ 102399); [|  |done].
    - change (inject_Z 102399) with 102399. lra.
    - change (inject_Z 102399) with 102399. lra. }
  unfold fmt_2f. rewrite Hs, Hh. reflexivity.
Qed.

(** X14: rounding can show 1024.00 with the smaller unit.  A value within
    half a hundredth below the next power of 1024 is still formatted with
    the unit it has not yet left, as 1024.00 of it. *)
Theorem top_of_unit_shows_1024 :
  ∀ (k : nat) (x : Q),
    (k ≤ 5)%nat →
    (1023995 # 1000) * 1024 ^ Z.of_nat k <= x →
    x < 1024 ^ (Z.of_nat k + 1) →
    format_size x =
      "1024.00 " +:+ nth k ["B"; "KB"; "MB"; "GB"; "TB"; "PB"]%string "EB"%string.
Proof.
  intros k x Hk Hlo Hhi.
  pose proof (power_pos (Z.of_nat k)) as Hp.
  rewrite (format_size_at k x Hk); [|right|done].
  - rewrite fmt_2f_below_1024; [done| |].
    + apply Qle_shift_div_l; done.
    + apply Qlt_shift_div_r; [done|]. by rewrite <- power_succ.
  - apply Qle_trans with ((1023995 # 1000) * 1024 ^ Z.of_nat k); [|exact Hlo].
    rewrite <- (Qmult_1_l (1024 ^ Z.of_nat k)) at 1.
    apply Qmult_le_compat_r; [discriminate|]. by apply Qlt_le_weak.
Qed.

Lemma top_of_unit_shows_1024_witness :
  format_size (1023999 # 1000) = "1024.00 B"%string ∧
  format_size (1048575 # 1) = "1024.00 KB"%string.
Proof.
  split.
  - apply (top_of_unit_shows_1024 0 (1023999 # 1000)); [lia|discriminate|reflexivity].
  - apply (top_of_unit_shows_1024 1 (1048575 # 1)); [lia|discriminate|reflexivity].
Defined.

(** *** Whole byte counts *)

Lemma round_half_even_Z (n : Z) : round_half_even (inject_Z n) = n.
Proof.
  unfold round_half_even. rewrite Qfloor_Z.
  destruct (Qcompare_spec (inject_Z n - inject_Z n) (1 # 2)) as [He|Hl|Hg].
  - exfalso. lra.
  - done.
  - exfalso. lra.
Qed.

Lemma append_assoc (a b c : string) : (a +:+ b) +:+ c = a +:+ b +:+ c.
Proof.
  induction a as [|ch a IH]; [done|].
  change (String ch ((a +:+ b) +:+ c) = String ch (a +:+ b +:+ c)).
  by rewrite IH.
Qed.

(** X15: a whole number of bytes below 1024 is shown exactly: its
    decimal digits followed by .00 B. *)
Theorem whole_bytes_shown_exactly :
  ∀ n : Z,
    (0 ≤ n < 1024)%Z →
    format_size (inject_Z n) = decimal n +:+ ".00 B".
Proof.
  intros n [Hn0 Hn].
  assert (Hlt : Qltb (inject_Z n) 1024 = true).
  { apply Formatter.Qltb_lt. change 1024 with (inject_Z 1024).
    by rewrite <- Zlt_Qlt. }
  assert (Hs : Qltb (inject_Z n) 0 = false).
  { apply Formatter.Qltb_ge. change 0 with (inject_Z 0). by rewrite <- Zle_Qle. }
  assert (Ha : Qabs (inject_Z n) * 100 == inject_Z (n * 100)).
  { rewrite Qabs_pos, inject_Z_mult; [reflexivity|].
    change 0 with (inject_Z 0). by rewrite <- Zle_Qle. }
  unfold format_size. cbn [units format_size_from]. rewrite Hlt.
  unfold fmt_2f.
  rewrite Hs, (Formatter.round_half_even_compat _ _ Ha), round_half_even_Z.
  rewrite Z.div_mul by done.
  replace (n * 100 mod 100)%Z with 0%Z by (symmetry; apply Z.mod_mul; done).
  replace (n * 100 mod 10)%Z with 0%Z
    by (replace (n * 100)%Z with (n * 10 * 10)%Z by lia;
        symmetry; apply Z.mod_mul; done).
  change ((decimal n +:+ ".00") +:+ " B" = decimal n +:+ ".00 B").
  rewrite append_assoc. reflexivity.
Qed.

Lemma whole_bytes_shown_exactly_witness :
  format_size (inject_Z 517) = decimal 517 +:+ ".00 B".
Proof. apply (whole_bytes_shown_exactly 517). lia. Defined.

End Magnitude.

(** ** Warnings of a run *)

Module Warnings.
Import S3Stat.

Lemma get_bucket_region_stdout aws bucket w :
  stdout (snd (get_bucket_region aws (Name bucket) w)) =
    stdout w ++ option_list (Expected.region_warning aws bucket).
Proof.
  unfold get_bucket_region, Expected.region_warning.
  destruct (get_bucket_location aws (Name bucket)) as [o|[]]; cbn;
    by rewrite ?app_nil_r.
Qed.

Lemma get_bucket_size_stdout aws bucket_name bucket_region w :
  let run := get_bucket_size aws bucket_name bucket_region w in
  stdout (snd run) = stdout w ∨
  ∃ e, stdout (snd run) = stdout w ++ [WarnSize bucket_name e] ∧ fst run = 0.
Proof.
  unfold get_bucket_size.
  destruct (get_bucket_size_try aws bucket_name bucket_region w) as [[v|e] w1] eqn:H;
    apply ClientCache.get_bucket_size_try_step in H as (_ & Hs & _); cbn.
  - by left.
  - right. exists e. by rewrite Hs.
Qed.

Lemma collect_stdout aws buckets :
  ∀ bucket_sizes total_size w records total w',
    collect aws buckets bucket_sizes total_size w = (Ok (records, total), w') →
    ∃ new lines,
      records = bucket_sizes ++ new ∧
      stdout w' = stdout w ++ lines ∧
      List.filter Expected.is_region_warning lines =
        omap (Expected.region_warning aws) buckets ∧
      ∀ bucket_name e, WarnSize bucket_name e ∈ lines →
        ∃ x, x ∈ new ∧ item.name x = bucket_name ∧ item.size x = 0.
Proof.
  induction buckets as [|bucket rest IH];
    intros bucket_sizes total_size w records total w' H; cbn [collect] in H.
  - injection H as <- _ <-. exists [], []. rewrite !app_nil_r.
    split; [done|]. split; [done|]. split; [done|].
    intros ? ? []%elem_of_nil.
  - pose proof (get_bucket_region_stdout aws bucket w) as Hout.
    assert (Hwarn : Expected.region_warning aws bucket = None ∨
                    ∃ l, Expected.region_warning aws bucket = Some l ∧
                         Expected.is_region_warning l = true).
    { unfold Expected.region_warning.
      destruct (get_bucket_location aws (Name bucket)) as [o|[]];
        [by left|right; by eexists|by left..]. }
    destruct (get_bucket_region aws (Name bucket) w) as [[r|e] w1]; [|done].
    cbn [snd] in Hout.
    pose proof (get_bucket_size_stdout aws (Name bucket) r w1) as Hsize.
    destruct (get_bucket_size aws (Name bucket) r w1) as [size w2].
    cbn [fst snd] in Hsize.
    apply IH in H as (new & lines & -> & Hlines & Hfilter & Hzero).
    set (x := {| item.name := Name bucket; item.size := size;
                 item.region := r; item.created := CreationDate bucket |}).
    assert (Hsz : ∃ mine, stdout w2 = stdout w1 ++ mine ∧
                    List.filter Expected.is_region_warning mine = [] ∧
                    ∀ b e, WarnSize b e ∈ mine → b = Name bucket ∧ size = 0).
    { destruct Hsize as [Hs|(e & Hs & ->)].
      - exists []. rewrite app_nil_r. split; [done|]. split; [done|].
        intros ? ? []%elem_of_nil.
      - exists [WarnSize (Name bucket) e]. split; [done|]. split; [done|].
        intros b e' [= -> _]%list_elem_of_singleton. done. }
    destruct Hsz as (mine & Hmine & Hnone & Hmine0).
    exists (x :: new),
      (option_list (Expected.region_warning aws bucket) ++ mine ++ lines).
    split; [by rewrite <- app_assoc|]. split; [|split].
    + rewrite Hlines, Hmine, Hout. by rewrite <- !app_assoc.
    + rewrite !List.filter_app, Hnone, Hfilter. cbn [omap list_omap app].
      fold (omap (Expected.region_warning aws) rest).
      destruct Hwarn as [->|(l & -> & Hl)]; cbn; [done|]. by rewrite Hl.
    + intros b e. rewrite !elem_of_app. intros [Hin|[Hin|Hin]].
      * exfalso. destruct Hwarn as [Hw|(l & Hw & Hl)]; rewrite Hw in Hin; cbn in Hin.
        -- by apply elem_of_nil in Hin.
        -- apply list_elem_of_singleton in Hin. subst l. discriminate Hl.
      * apply Hmine0 in Hin as [-> ->]. exists x. split; [by left|done].
      * apply Hzero in Hin as (y & Hy & Hname & Hsize0).
        exists y. split; [by right|done].
Qed.

(** X16: in a finished run the region warnings printed are, in listing
    order, exactly one for each bucket whose region lookup raised a
    [ClientError]; and every size warning printed names a bucket whose
    record in the report has size 0. *)
Theorem warnings_account_for_fallbacks :
  ∀ aws report w,
    main aws = (Finished report, w) →
    ∃ buckets,
      list_buckets aws = Ok buckets ∧
      List.filter Expected.is_region_warning (stdout w) =
        omap (Expected.region_warning aws) buckets ∧
      ∀ bucket_name e, WarnSize bucket_name e ∈ stdout w →
        ∃ x, x ∈ details report ∧ item.name x = bucket_name ∧ item.size x = 0.
Proof.
  intros aws report w. unfold main.
  destruct (boto3_s3 aws) as [s3_client|e]; [|done].
  destruct (list_buckets aws) as [[|b buckets]|e]; [done| |done].
  destruct (collect aws (b :: buckets) [] 0 start) as [[[records total]|e] w1] eqn:Hc;
    [|done].
  intros [= <- <-]. cbn [details].
  apply collect_stdout in Hc as (new & lines & -> & Hlines & Hfilter & Hzero).
  cbn [stdout start app] in Hlines. rewrite Hlines.
  exists (b :: buckets). split; [done|]. split; [done|].
  intros bucket_name e (x & Hx & Hname & Hsize)%Hzero.
  exists x. split; [|done]. cbn [app]. by rewrite Rollup.sort_by_size_perm.
Qed.

Lemma warnings_account_for_fallbacks_witness :
  ∃ buckets,
    list_buckets Outage.cloudwatch_down = Ok buckets ∧
    List.filter Expected.is_region_warning (stdout (snd (main Outage.cloudwatch_down))) =
      omap (Expected.region_warning Outage.cloudwatch_down) buckets ∧
    ∀ bucket_name e,
      WarnSize bucket_name e ∈ stdout (snd (main Outage.cloudwatch_down)) →
      ∃ x, x ∈ [ {| item.name := "logs"; item.size := 0;
                    item.region := "eu-west-1"; item.created := 5 |} ] ∧
           item.name x = bucket_name ∧ item.size x = 0.
Proof.
  apply (warnings_account_for_fallbacks Outage.cloudwatch_down
           {| details := [ {| item.name := "logs"; item.size := 0;
                              item.region := "eu-west-1"; item.created := 5 |} ];
              by_region := [ ("eu-west-1"%string,
                              {| stats.count := 1; stats.size := 0 |}) ];
              bucket_total := 1; region_total := 1; grand_total := 0 |}).
  vm_compute. reflexivity.
Defined.

End Warnings.
